(** * MyPTV imaging module: cameras and the multi-camera stereo match

    A shallow embedding of [imaging_mod.py] (classes [camera] and
    [img_system]) and the verification of its specification.

    Conventions of the embedding.
    - numpy floats are read as exact reals ([R]); [cos] and [sin] are the
      real functions.  The division [/] of the source is the true division
      of Python 3, so [resolution[0]/2] and [resolution[0]/2.0] denote the
      same real number.
    - a numpy array of three numbers is a [vec3], a 3x3 array a [mat3]
      (three rows); [dot] is the row-by-column product.
    - exceptions are the constructors of [exn]; a call that may raise
      returns a [result].
    - a Python [dict] is an insertion-ordered list of entries with pairwise
      distinct keys; a Python [set] of camera numbers is a [gset Z]. *)

From stdpp Require Import base list gmap sets strings.
From Stdlib Require Import Reals Lra Psatz.

(** ** Exceptions and results *)

Inductive exn : Type :=
| TypeError (msg : string)
| IndexError
| KeyError
| LinAlgError.

Inductive result (A : Type) : Type :=
| Ok (a : A)
| Raise (e : exn).
Arguments Ok {A} a.
Arguments Raise {A} e.

Definition result_map {A B : Type} (g : A → B) (r : result A) : result B :=
  match r with
  | Ok a => Ok (g a)
  | Raise e => Raise e
  end.

Definition result_bind {A B : Type} (r : result A) (k : A → result B) : result B :=
  match r with
  | Ok a => k a
  | Raise e => Raise e
  end.

(** ** Three-dimensional arrays *)

Module Vec3.
Local Open Scope R_scope.

Record vec3 : Type := array3 { vx : R; vy : R; vz : R }.

Record mat3 : Type := rows3 { row0 : vec3; row1 : vec3; row2 : vec3 }.

(** [zeros(3)] *)
Definition zeros3 : vec3 := array3 0 0 0.

(** elementwise [u + v], [u - v], [u * s], [u / s] of numpy *)
Definition vadd (u v : vec3) : vec3 :=
  array3 (vx u + vx v) (vy u + vy v) (vz u + vz v).
Definition vsub (u v : vec3) : vec3 :=
  array3 (vx u - vx v) (vy u - vy v) (vz u - vz v).
Definition vscale (s : R) (u : vec3) : vec3 :=
  array3 (s * vx u) (s * vy u) (s * vz u).
Definition vdiv (u : vec3) (s : R) : vec3 :=
  array3 (vx u / s) (vy u / s) (vz u / s).
(** a scalar broadcast against an array, as in [0 + x] *)
Definition broadcast (s : R) : vec3 := array3 s s s.

(** the inner product of two vectors *)
Definition inner (u v : vec3) : R := vx u * vx v + vy u * vy v + vz u * vz v.

Definition col0 (M : mat3) : vec3 := array3 (vx (row0 M)) (vx (row1 M)) (vx (row2 M)).
Definition col1 (M : mat3) : vec3 := array3 (vy (row0 M)) (vy (row1 M)) (vy (row2 M)).
Definition col2 (M : mat3) : vec3 := array3 (vz (row0 M)) (vz (row1 M)) (vz (row2 M)).

(** [dot(v, M)] for a vector and a matrix: the row vector times the matrix *)
Definition dot_vm (v : vec3) (M : mat3) : vec3 :=
  array3 (inner v (col0 M)) (inner v (col1 M)) (inner v (col2 M)).

(** [dot(A, B)] for two matrices *)
Definition dot_mm (A B : mat3) : mat3 :=
  rows3 (dot_vm (row0 A) B) (dot_vm (row1 A) B) (dot_vm (row2 A) B).

Definition transpose (M : mat3) : mat3 := rows3 (col0 M) (col1 M) (col2 M).

Definition identity3 : mat3 :=
  rows3 (array3 1 0 0) (array3 0 1 0) (array3 0 0 1).

Definition mscale (s : R) (M : mat3) : mat3 :=
  rows3 (vscale s (row0 M)) (vscale s (row1 M)) (vscale s (row2 M)).
Definition madd (A B : mat3) : mat3 :=
  rows3 (vadd (row0 A) (row0 B)) (vadd (row1 A) (row1 B)) (vadd (row2 A) (row2 B)).

Definition det (M : mat3) : R :=
  let '(rows3 (array3 a b c) (array3 d e f) (array3 g h i)) := M in
  a * (e * i - f * h) - b * (d * i - f * g) + c * (d * h - e * g).

(** the transposed matrix of cofactors *)
Definition adjugate (M : mat3) : mat3 :=
  let '(rows3 (array3 a b c) (array3 d e f) (array3 g h i)) := M in
  rows3 (array3 (e * i - f * h) (c * h - b * i) (b * f - c * e))
        (array3 (f * g - d * i) (a * i - c * g) (c * d - a * f))
        (array3 (d * h - e * g) (b * g - a * h) (a * e - b * d)).

(** [numpy.linalg.inv]: the inverse of a square matrix; a singular
    matrix raises [LinAlgError]. *)
Definition inv (M : mat3) : result mat3 :=
  if Req_dec_T (det M) 0 then Raise LinAlgError
  else Ok (mscale (/ det M) (adjugate M)).

(** A matrix is orthonormal when both products with its transpose are
    the identity. *)
Definition orthonormal (M : mat3) : Prop :=
  dot_mm M (transpose M) = identity3 ∧ dot_mm (transpose M) M = identity3.
End Vec3.
Export Vec3.

(** ** The camera *)

(** A Python value as [give_name] sees it: by its exact runtime type.
    [PyStr] are the values [v] with [type(v) == str]; [PyStrSub cls s] is
    an instance, with the text [s], of the proper subclass [cls] of [str]
    (such as [numpy.str_]); every other type has a constructor of its own
    or falls under [PyObject], named by its class. *)
Inductive pyval : Type :=
| PyNone
| PyBool (b : bool)
| PyInt (z : Z)
| PyFloat (x : R)
| PyStr (s : string)
| PyStrSub (class_name : string) (s : string)
| PyObject (class_name : string).

(** [type(v) == str] *)
Definition type_is_str (v : pyval) : bool :=
  match v with
  | PyStr _ => true
  | _ => false
  end.

(** [isinstance(v, str)]: the value is a string. *)
Definition is_string (v : pyval) : bool :=
  match v with
  | PyStr _ | PyStrSub _ _ => true
  | _ => false
  end.

(** A name taken from a numpy array of strings. *)
Definition numpy_name : pyval := PyStrSub "numpy.str_" "cam".

(** The calibration points read by [Cal_image_coord]. *)
Record cal_points : Type := Cal_points {
  image_coords : list (R * R);
  lab_coords : list vec3
}.

(** The attributes of a [camera] object.  [cam_cal] is [None] while the
    attributes [image_points] and [lab_points] have not been assigned. *)
Record camera : Type := Camera {
  cam_O : vec3;                 (* self.O, camera location *)
  cam_theta : vec3;             (* self.theta, rotation angles *)
  cam_f : R;                    (* self.f, focal depth *)
  cam_R : mat3;                 (* self.R *)
  cam_resolution : Z * Z;       (* self.resolution *)
  cam_name : string;            (* self.name *)
  cam_cal : option cal_points   (* self.image_points, self.lab_points *)
}.

Definition set_O (c : camera) (o : vec3) : camera :=
  Camera o (cam_theta c) (cam_f c) (cam_R c) (cam_resolution c) (cam_name c) (cam_cal c).
Definition set_theta (c : camera) (th : vec3) : camera :=
  Camera (cam_O c) th (cam_f c) (cam_R c) (cam_resolution c) (cam_name c) (cam_cal c).
Definition set_f (c : camera) (f : R) : camera :=
  Camera (cam_O c) (cam_theta c) f (cam_R c) (cam_resolution c) (cam_name c) (cam_cal c).
Definition set_R (c : camera) (M : mat3) : camera :=
  Camera (cam_O c) (cam_theta c) (cam_f c) M (cam_resolution c) (cam_name c) (cam_cal c).
Definition set_name (c : camera) (s : string) : camera :=
  Camera (cam_O c) (cam_theta c) (cam_f c) (cam_R c) (cam_resolution c) s (cam_cal c).
Definition set_cal (c : camera) (p : cal_points) : camera :=
  Camera (cam_O c) (cam_theta c) (cam_f c) (cam_R c) (cam_resolution c) (cam_name c) (Some p).

Section Camera.
Local Open Scope R_scope.

(** The three arrays built by [calc_R]. *)
Definition Rx (tx : R) : mat3 :=
  rows3 (array3 1 0 0)
        (array3 0 (cos tx) (- sin tx))
        (array3 0 (sin tx) (cos tx)).
Definition Ry (ty : R) : mat3 :=
  rows3 (array3 (cos ty) 0 (sin ty))
        (array3 0 1 0)
        (array3 (- sin ty) 0 (cos ty)).
Definition Rz (tz : R) : mat3 :=
  rows3 (array3 (cos tz) (- sin tz) 0)
        (array3 (sin tz) (cos tz) 0)
        (array3 0 0 1).

(** The matrix [calc_R] computes from the angles. *)
Definition rotation_of (th : vec3) : mat3 :=
  let '(array3 tx ty tz) := th in
  dot_mm (dot_mm (Rx tx) (Ry ty)) (Rz tz).

(** [camera.calc_R]: calculates the rotation matrix for the camera's
    angles and stores it in [self.R]. *)
Definition calc_R (c : camera) : camera :=
  set_R c (rotation_of (cam_theta c)).

(** [camera.give_name]: the name is stored when [type(name) == str], that
    is for a [PyStr], and [TypeError] is raised otherwise. *)
Definition give_name (c : camera) (name : pyval) : result camera :=
  match name with
  | PyStr s => Ok (set_name c s)
  | _ => Raise (TypeError "name must be string")
  end.

(** [camera.get_r]: the direction vector of the pixel [(eta, zeta)]; the
    camera it returns is [self] after the call.  The resolution is a pair
    of integers, halved as a real number. *)
Definition get_r (c : camera) (eta zeta : R) : vec3 * camera :=
  let c := calc_R c in
  let eta_ := eta - IZR (fst (cam_resolution c)) / 2 in
  let zeta_ := zeta - IZR (snd (cam_resolution c)) / 2 in
  let r := dot_vm (array3 (- eta_) (- zeta_) (- cam_f c)) (cam_R c) in
  (r, c).

(** The first statement of [camera.projection]:
    [v = dot(x - self.O, inv(self.R))]. *)
Definition camera_frame (c : camera) (x : vec3) : result vec3 :=
  result_bind (inv (cam_R c)) (λ Ri, Ok (dot_vm (vsub x (cam_O c)) Ri)).

(** [camera.projection]: the image coordinate [(eta, zeta)] of a real
    point [x].  [self.R] is read as stored. *)
Definition projection (c : camera) (x : vec3) : result (R * R) :=
  result_bind (camera_frame c x) (λ v,
    let a := -1 * vz v / cam_f c in
    let eta := (-1 * vx v) / a + IZR (fst (cam_resolution c)) / 2 in
    let zeta := (-1 * vy v) / a + IZR (snd (cam_resolution c)) / 2 in
    Ok (eta, zeta)).

(** [Cal_image_coord(fname)], the reader of calibration files, is code
    of another module: it is a parameter of the constructor. *)
Variable Cal_image_coord : string → result cal_points.

(** [camera.__init__].  The attributes are assigned in the order of the
    source; [resolution] and [name], which [calc_R] does not read, stand
    in the record from the start ([name] as the empty string until
    [give_name] assigns it; no camera exists when [give_name] raises). *)
Definition camera_init (name : pyval) (resolution : Z * Z)
    (cal_points_fname : option string) : result camera :=
  let self := Camera (vadd zeros3 (broadcast 1))   (* zeros(3) + 1. *)
                     (vadd zeros3 (broadcast 1))
                     1
                     identity3                      (* overwritten by calc_R *)
                     resolution EmptyString None in
  let self := calc_R self in
  result_bind (give_name self name) (λ self,
    match cal_points_fname with
    | Some fname =>
        result_bind (Cal_image_coord fname) (λ cic, Ok (set_cal self cic))
    | None => Ok self
    end).
End Camera.

Section Persistence.
(** Reading the file written by [camera.save] and parsing its lines is
    input and conversion code outside the geometry: [read_camera_file
    dir_path name] stands for its outcome, the values assigned to
    [self.O], [self.theta] and [self.f], or the exception raised. *)
Variable read_camera_file : string → string → result (vec3 * vec3 * R).

(** [camera.load] *)
Definition load (c : camera) (dir_path : string) : result camera :=
  result_bind (read_camera_file dir_path (cam_name c)) (λ '(o, th, f),
    Ok (calc_R (set_f (set_theta (set_O c o) th) f))).
End Persistence.

(** ** The imaging system *)

(** Image-space coordinates [(eta, zeta)]. *)
Definition pixel : Type := R * R.

(** The [coords] argument: a [dict] from camera number to image
    coordinates, its entries in iteration order. *)
Record dict : Type := Dict {
  dict_items : list (Z * pixel);
  dict_nodup : NoDup (dict_items.*1)
}.

(** [list(coords.keys())] and [len(coords)] *)
Definition dict_keys (coords : dict) : list Z := (dict_items coords).*1.
Definition dict_len (coords : dict) : nat := length (dict_items coords).

Fixpoint alist_find (l : list (Z * pixel)) (k : Z) : option pixel :=
  match l with
  | [] => None
  | (k', v) :: l' => if decide (k' = k) then Some v else alist_find l' k
  end.

(** [img_system]: an object that holds a number of cameras. *)
Record img_system : Type := Img_system { cameras : list camera }.

(** One call of [line_dist], by its four arguments. *)
Definition line_dist_call : Type := vec3 * vec3 * vec3 * vec3.

(** The state [stereo_match] runs in: the imaging system [self], whose
    cameras [get_r] updates in place, and the calls of [line_dist] made so
    far, oldest first (a history, which no result depends on). *)
Record world : Type := World {
  self : img_system;
  calls : list line_dist_call
}.

(** Computations that read and update the state and may raise. *)
Definition M (A : Type) : Type := world → result (A * world).

Definition ret {A : Type} (a : A) : M A := λ w, Ok (a, w).
Definition raise {A : Type} (e : exn) : M A := λ _, Raise e.
Definition bind {A B : Type} (m : M A) (k : A → M B) : M B :=
  λ w, match m w with
       | Ok (a, w') => k a w'
       | Raise e => Raise e
       end.

Declare Scope py_scope.
Delimit Scope py_scope with py.
Notation "x <- m ;; k" := (bind m (λ x, k))
  (at level 100, m at next level, right associativity) : py_scope.

(** [for a in l: s = body(a, s)] *)
Fixpoint for_each {A S : Type} (l : list A) (body : A → S → M S) (s : S) : M S :=
  match l with
  | [] => ret s
  | a :: l' => bind (body a s) (for_each l' body)
  end.

(** [range(a, b)] for natural numbers *)
Definition py_range (a b : nat) : list nat := seq a (b - a).

(** The position that the subscript [k] denotes in a list of length [n]:
    Python counts a negative subscript from the end. *)
Definition py_index (n : nat) (k : Z) : option nat :=
  if bool_decide (0 ≤ k < Z.of_nat n)%Z then Some (Z.to_nat k)
  else if bool_decide (- Z.of_nat n ≤ k < 0)%Z then Some (Z.to_nat (k + Z.of_nat n))
  else None.

(** The camera that [cameras[k]] denotes, with its position in the list. *)
Definition camera_at (cs : list camera) (k : Z) : option (nat * camera) :=
  match py_index (length cs) k with
  | Some i => match cs !! i with Some c => Some (i, c) | None => None end
  | None => None
  end.

(** [keys[i]] *)
Definition list_getitem (keys : list Z) (i : nat) : M Z :=
  match keys !! i with
  | Some k => ret k
  | None => raise IndexError
  end.

(** [coords[k]] *)
Definition dict_getitem (coords : dict) (k : Z) : M pixel :=
  match alist_find (dict_items coords) k with
  | Some p => ret p
  | None => raise KeyError
  end.

(** [self.cameras[k]] *)
Definition cameras_getitem (k : Z) : M camera :=
  λ w, match camera_at (cameras (self w)) k with
       | Some (_, c) => Ok (c, w)
       | None => Raise IndexError
       end.

(** [self.cameras[k].get_r(eta, zeta)]: the camera object is updated in
    place by the method. *)
Definition cameras_get_r (k : Z) (eta zeta : R) : M vec3 :=
  λ w, match camera_at (cameras (self w)) k with
       | Some (i, c) =>
           let '(r, c') := get_r c eta zeta in
           Ok (r, World (Img_system (<[i:=c']> (cameras (self w)))) (calls w))
       | None => Raise IndexError
       end.

(** The local variables [x], [cams] and [d] of [stereo_match]. *)
Record locals : Type := Locals {
  loc_x : list vec3;
  loc_cams : list Z;
  loc_d : list R
}.

(** [sum(x)] for a list of arrays and for a list of numbers: Python adds
    the items to [0] from the left. *)
Definition py_sum_arrays (x : list vec3) : vec3 := foldl vadd (broadcast 0%R) x.
Definition py_sum (d : list R) : R := foldl Rplus 0%R d.

Section Stereo_match.
Local Open Scope py_scope.

(** [line_dist] of module [utils]: the distance between two lines, each
    given by a point and a direction, and the point where they are
    closest. *)
Variable line_dist : vec3 → vec3 → vec3 → vec3 → R * vec3.

Definition call_line_dist (O1 r1 O2 r2 : vec3) : M (R * vec3) :=
  λ w, Ok (line_dist O1 r1 O2 r2, World (self w) (calls w ++ [(O1, r1, O2, r2)])).

(** The body of the two loops of [stereo_match]. *)
Definition pair_step (coords : dict) (d_max : R) (keys : list Z)
    (i j : nat) (loc : locals) : M locals :=
  ki <- list_getitem keys i ;;
  c1 <- cameras_getitem ki ;;
  let O1 := cam_O c1 in
  p1 <- dict_getitem coords ki ;;
  r1 <- cameras_get_r ki (fst p1) (snd p1) ;;
  kj <- list_getitem keys j ;;
  c2 <- cameras_getitem kj ;;
  let O2 := cam_O c2 in
  p2 <- dict_getitem coords kj ;;
  r2 <- cameras_get_r kj (fst p2) (snd p2) ;;
  Dx <- call_line_dist O1 r1 O2 r2 ;;
  let '(D, x_ij) := Dx in
  if Rle_dec D d_max
  then ret (Locals (loc_x loc ++ [x_ij]) (loc_cams loc ++ [ki; kj]) (loc_d loc ++ [D]))
  else ret loc.

(** The two nested loops, from the empty lists. *)
Definition stereo_loops (coords : dict) (d_max : R) : M locals :=
  let N := dict_len coords in
  let keys := dict_keys coords in
  for_each (py_range 0 N) (λ i loc,
    for_each (py_range (i + 1) N) (λ j loc,
      pair_step coords d_max keys i j loc) loc) (Locals [] [] []).

(** [img_system.stereo_match]; the value is [None] or the triple
    [(X, cams, dist)]. *)
Definition stereo_match (coords : dict) (d_max : R) : M (option (vec3 * gset Z * R)) :=
  loc <- stereo_loops coords d_max ;;
  let x := loc_x loc in
  let cams := loc_cams loc in
  let d := loc_d loc in
  if bool_decide (1 ≤ length x)%nat
  then ret (Some (vdiv (vdiv (py_sum_arrays x) 1) (INR (length x)),
                  list_to_set cams,
                  (py_sum d / 1 / INR (length x))%R))
  else ret None.

(** What a caller observes of [self.stereo_match(coords, d_max)] on the
    system [sys]: the value returned or the exception raised. *)
Definition stereo_match_value (sys : img_system) (coords : dict) (d_max : R)
    : result (option (vec3 * gset Z * R)) :=
  result_map fst (stereo_match coords d_max (World sys [])).
End Stereo_match.

(** ** Notions of the specification *)

Section Specification.
Local Open Scope R_scope.

(** The standard right-handed rotation by the angle [t] about the unit
    axis [u], by Rodrigues' formula [I + sin t K + (1 - cos t) K^2] where
    [K] is the cross-product matrix of [u]. *)
Definition cross_matrix (u : vec3) : mat3 :=
  rows3 (array3 0 (- vz u) (vy u))
        (array3 (vz u) 0 (- vx u))
        (array3 (- vy u) (vx u) 0).

Definition axis_rotation (u : vec3) (t : R) : mat3 :=
  let K := cross_matrix u in
  madd identity3 (madd (mscale (sin t) K) (mscale (1 - cos t) (dot_mm K K))).

Definition axis_x : vec3 := array3 1 0 0.
Definition axis_y : vec3 := array3 0 1 0.
Definition axis_z : vec3 := array3 0 0 1.

(** The rotation matrix of a camera is consistent with its angles. *)
Definition consistent (c : camera) : Prop :=
  cam_R c = rotation_of (cam_theta c).

(** [x] lies on the line through [o] with direction [r]. *)
Definition on_line (o r x : vec3) : Prop :=
  ∃ t : R, x = vadd o (vscale t r).

(** The round trip at camera [c] and lab point [x]: when the rotation
    matrix is consistent with the angles and [x] is off the focal plane,
    the ray of the projected pixel passes through [x]. *)
Definition roundtrip (c : camera) (x : vec3) : Prop :=
  ∃ eta zeta, projection c x = Ok (eta, zeta)
              ∧ on_line (cam_O c) (fst (get_r c eta zeta)) x.

Definition off_focal_plane (c : camera) (x : vec3) : Prop :=
  ∃ v, camera_frame c x = Ok v ∧ vz v ≠ 0.

(** A camera with focal depth [0] at the origin, and a point on its axis. *)
Definition flat_camera : camera :=
  Camera (array3 0 0 0) (array3 0 0 0) 0 identity3 (0, 0)%Z EmptyString None.
Definition axis_point : vec3 := array3 0 0 1.

(** A camera at the origin with angles [(0, 0, 0)], focal depth [1] and
    resolution [(10, 10)]. *)
Definition unit_camera : camera :=
  Camera (array3 0 0 0) (array3 0 0 0) 1 identity3 (10, 10)%Z EmptyString None.

(** The arithmetic mean of a list of points and of a list of numbers. *)
Definition mean_arrays (l : list vec3) : vec3 :=
  vdiv (foldr vadd zeros3 l) (INR (length l)).
Definition mean (l : list R) : R :=
  foldr Rplus 0 l / INR (length l).

(** Modelled from the spec: [closestApproach], the routine [line_dist] of
    module [utils], which is not part of the sources at hand.  The two
    lines are [O1 + t r1] and [O2 + s r2]; [t] and [s] solve the 2x2
    linear system obtained by projecting the connecting vector onto each
    direction; the result is the distance of the two closest points and
    their midpoint. *)
Definition closestApproach (O1 r1 O2 r2 : vec3) : R * vec3 :=
  let dO := vsub O2 O1 in
  let r12 := inner r1 r1 in
  let r22 := inner r2 r2 in
  let r1r2 := inner r1 r2 in
  let B0 := inner dO r1 in
  let B1 := inner dO r2 in
  let den := - r22 * r12 + r1r2 * r1r2 in
  let t := (- r22 * B0 + r1r2 * B1) / den in
  let s := (- r1r2 * B0 + r12 * B1) / den in
  let l1 := vadd O1 (vscale t r1) in
  let l2 := vadd O2 (vscale s r2) in
  (sqrt (inner (vsub l1 l2) (vsub l1 l2)), vscale (/ 2) (vadd l1 l2)).
End Specification.

(** The unordered pairs of a list of keys: each key with each later key. *)
Fixpoint all_pairs (keys : list Z) : list (Z * Z) :=
  match keys with
  | [] => []
  | k :: rest => map (pair k) rest ++ all_pairs rest
  end.

(** The pairs in the order in which the two loops of [stereo_match] visit
    them: [(keys[i], keys[j])] for [i] in [range(N)] and [j] in
    [range(i+1, N)]. *)
Definition index_pairs (keys : list Z) : list (Z * Z) :=
  let N := length keys in
  concat ((λ i, (λ j, (keys !!! i, keys !!! j)) <$> py_range (i + 1) N) <$> py_range 0 N).

(** The number of 2-element subsets of an [n]-element set. *)
Definition choose2 (n : nat) : nat := n * (n - 1) / 2.

(** The camera that the number [k] names in the system. *)
Definition resolve (sys : img_system) (k : Z) : option camera :=
  snd <$> camera_at (cameras sys) k.

(** The ray of camera [c] through the pixel [p], as [get_r] returns it. *)
Definition ray (c : camera) (p : pixel) : vec3 := fst (get_r c (fst p) (snd p)).

Section Pairs.
Variable line_dist : vec3 → vec3 → vec3 → vec3 → R * vec3.
Variable sys : img_system.
Variable coords : dict.

(** The arguments with which [line_dist] is called for the pair of
    cameras [(ki, kj)]: each camera's location and its ray at its own
    observed pixel. *)
Definition pair_call (kk : Z * Z) : option line_dist_call :=
  c1 ← resolve sys kk.1;
  p1 ← alist_find (dict_items coords) kk.1;
  c2 ← resolve sys kk.2;
  p2 ← alist_find (dict_items coords) kk.2;
  Some (cam_O c1, ray c1 p1, cam_O c2, ray c2 p2).

(** The closest-approach distance and the candidate point of a pair. *)
Definition pair_dist (kk : Z * Z) : option (R * vec3) :=
  (λ '(O1, r1, O2, r2), line_dist O1 r1 O2 r2) <$> pair_call kk.

(** A pair is retained when its distance is at most [d_max]. *)
Definition is_retained (d_max : R) (kk : Z * Z) : Prop :=
  match pair_dist kk with
  | Some (D, _) => (D <= d_max)%R
  | None => False
  end.

#[global] Instance is_retained_dec d_max kk : Decision (is_retained d_max kk).
Proof.
  unfold is_retained. destruct (pair_dist kk) as [[D ?]|].
  - apply Rle_dec.
  - right. tauto.
Defined.

(** The retained pairs, in the order of enumeration. *)
Definition retained (d_max : R) : list (Z * Z) :=
  filter (is_retained d_max) (all_pairs (dict_keys coords)).

(** The candidate points, the distances and the camera numbers of a
    list of pairs. *)
Definition points_of (l : list (Z * Z)) : list vec3 :=
  omap (λ kk, snd <$> pair_dist kk) l.
Definition dists_of (l : list (Z * Z)) : list R :=
  omap (λ kk, fst <$> pair_dist kk) l.
Definition cams_of (l : list (Z * Z)) : list Z :=
  flat_map (λ kk, [kk.1; kk.2]) l.

(** The result of the specification: nothing when no pair is retained,
    else the mean of the retained candidate points, the set of the
    cameras in retained pairs and the mean of the retained distances. *)
Definition consensus (d_max : R) : option (vec3 * gset Z * R) :=
  let l := retained d_max in
  if decide (l = []) then None
  else Some (mean_arrays (points_of l), list_to_set (cams_of l), mean (dists_of l)).

(** What a pair contributes to the result: its candidate point, its
    distance and its two cameras when it is retained, nothing otherwise. *)
Definition summary (d_max : R) (kk : Z * Z) : option (vec3 * R * gset Z) :=
  match pair_dist kk with
  | Some (D, x) => if Rle_dec D d_max then Some (x, D, {[kk.1; kk.2]}) else None
  | None => None
  end.

(** Every camera number of the mapping names a camera of the system. *)
Definition known_cameras : Prop :=
  ∀ k, k ∈ dict_keys coords → is_Some (resolve sys k).

(** Both cameras of every enumerated pair exist. *)
Definition pairs_defined : Prop :=
  Forall (λ kk, is_Some (pair_call kk)) (all_pairs (dict_keys coords)).

(** The distance of the pair strictly exceeds [d_max]. *)
Definition too_far (d_max : R) (kk : Z * Z) : Prop :=
  ∃ D x, pair_dist kk = Some (D, x) ∧ (D > d_max)%R.

(** The effect of one pass through the loop body on the local variables. *)
Definition step_locals (d_max : R) (loc : locals) (kk : Z * Z) : locals :=
  match pair_dist kk with
  | Some (D, x_ij) =>
      if Rle_dec D d_max
      then Locals (loc_x loc ++ [x_ij]) (loc_cams loc ++ [kk.1; kk.2]) (loc_d loc ++ [D])
      else loc
  | None => loc
  end.

(** The cameras of the state [w] are those of [sys], up to rotation
    matrices that [calc_R] has recomputed. *)
Definition refreshes (w : world) : Prop :=
  calc_R <$> cameras (self w) = calc_R <$> cameras sys.

(** What a piece of the loops that visits the pairs [l] does from the
    local variables [loc] and the state [w]: when the cameras of all the
    pairs exist it passes through the body once for each pair, in order,
    and calls [line_dist] once for each; otherwise it raises
    [IndexError]. *)
Definition loop_outcome (d_max : R) (l : list (Z * Z))
    (r : result (locals * world)) (loc : locals) (w : world) : Prop :=
  (Forall (λ kk, is_Some (pair_call kk)) l
   ∧ ∃ w', r = Ok (foldl (step_locals d_max) loc l, w')
           ∧ refreshes w'
           ∧ calls w' = calls w ++ omap pair_call l)
  ∨ (¬ Forall (λ kk, is_Some (pair_call kk)) l ∧ r = Raise IndexError).
End Pairs.

(** The result that a list of contributions adds up to. *)
Definition aggregate (ss : list (vec3 * R * gset Z)) : option (vec3 * gset Z * R) :=
  if decide (ss = []) then None
  else Some (vdiv (foldr vadd zeros3 (ss.*1.*1)) (INR (length ss)),
             ⋃ (ss.*2),
             (foldr Rplus 0 (ss.*1.*2) / INR (length ss))%R).

(** [line_dist] does not depend on the order of the two lines. *)
Definition symmetric (line_dist : vec3 → vec3 → vec3 → vec3 → R * vec3) : Prop :=
  ∀ O1 r1 O2 r2, line_dist O1 r1 O2 r2 = line_dist O2 r2 O1 r1.

(** ** A system of two cameras *)

Section Two_cameras.
Local Open Scope R_scope.

(** Two cameras one unit apart, both with angles [(0, 0, 0)]. *)
Definition left_camera : camera := unit_camera.
Definition right_camera : camera := set_O unit_camera (array3 1 0 0).
Definition stereo_pair : img_system := Img_system [left_camera; right_camera].

Definition centre : pixel := (5, 5).

(** Both cameras see the centre pixel; camera [7] does not exist. *)
Definition two_views : dict :=
  Dict [(0%Z, centre); (1%Z, centre)]
       ltac:(refine (bool_decide_unpack _ _); vm_compute; exact I).
Definition two_views_swapped : dict :=
  Dict [(1%Z, centre); (0%Z, centre)]
       ltac:(refine (bool_decide_unpack _ _); vm_compute; exact I).
Definition one_view : dict :=
  Dict [(7%Z, centre)] ltac:(refine (bool_decide_unpack _ _); vm_compute; exact I).

(** The distance of the two rays of [two_views]. *)
Definition two_views_dist : R :=
  fst (closestApproach (cam_O left_camera) (ray left_camera centre)
                       (cam_O right_camera) (ray right_camera centre)).
End Two_cameras.

(** ** Triangulation *)

Section Triangulation.
Local Open Scope R_scope.

(** Two directions are linearly independent: the determinant of the 2x2
    system of the closest approach is not [0]. *)
Definition independent (u v : vec3) : Prop :=
  inner u u * inner v v - inner u v * inner u v ≠ 0.

(** For two lines with independent directions that cross in [x],
    [line_dist] returns the distance [0] and the point [x]. *)
Definition exact_on_crossings (line_dist : vec3 → vec3 → vec3 → vec3 → R * vec3) : Prop :=
  ∀ O1 r1 O2 r2 x,
    independent r1 r2 → on_line O1 r1 x → on_line O2 r2 x →
    line_dist O1 r1 O2 r2 = (0, x).

(** Camera [k] of the system sees the lab point [x] at the pixel [p]. *)
Definition sees (sys : img_system) (x : vec3) (k : Z) (p : pixel) : Prop :=
  ∃ c, resolve sys k = Some c ∧ consistent c ∧ cam_f c ≠ 0
       ∧ off_focal_plane c x ∧ projection c x = Ok p.

(** The images of [axis_point] in the two cameras of [stereo_pair]. *)
Definition crossing_views : dict :=
  Dict [(0%Z, (5, 5)); (1%Z, (4, 5))]
       ltac:(refine (bool_decide_unpack _ _); vm_compute; exact I).
End Triangulation.

(** ** Plotting and persistence *)

Section Plotting.
Local Open Scope R_scope.

(** [camera.plot_3D_epipolar_line], up to the drawing itself: the three
    coordinate lists [[x0,x1]], [[z0,z1]], [[y0,y1]] that every branch hands
    to [ax.plot3D], in that order, and [self] after the call of [get_r]. *)
Definition plot_3D_epipolar_line (c : camera) (eta zeta : R) (zlims : R * R)
    : (R * R) * (R * R) * (R * R) * camera :=
  let '(z0, z1) := zlims in
  let '(r, c) := get_r c eta zeta in
  let a0 := (z0 - vz (cam_O c)) / vz r in
  let a1 := (z1 - vz (cam_O c)) / vz r in
  let x0 := vx (cam_O c) + a0 * vx r in
  let x1 := vx (cam_O c) + a1 * vx r in
  let y0 := vy (cam_O c) + a0 * vy r in
  let y1 := vy (cam_O c) + a1 * vy r in
  ((x0, x1), (z0, z1), (y0, y1), c).
End Plotting.

(** The exceptions of file handling and text conversion. *)
Inductive io_exn : Type := OSError | ValueError.

(** The outcome of [camera.load]: [self] when the call returns, or the
    exception.  [Loaded_other_shape o c] is a return after which [self.O]
    is the array [o], which has not three entries, and the other attributes
    are those of [c]. *)
Inductive load_outcome : Type :=
| Loaded (c : camera)
| Loaded_other_shape (o : list R) (c : camera)
| Load_fails (e : io_exn).

(** The line feed and the carriage return. *)
Definition LF : Ascii.ascii := Ascii.ascii_of_nat 10.
Definition CR : Ascii.ascii := Ascii.ascii_of_nat 13.
Definition SP : Ascii.ascii := Ascii.ascii_of_nat 32.

(** [f.readline()] on a file opened for reading in text mode: the next
    line with its terminator, which is read as a line feed whether it is
    written as line feed, carriage return or both; the second component is
    what is left of the file. *)
Fixpoint readline (s : string) : string * string :=
  match s with
  | EmptyString => (EmptyString, EmptyString)
  | String ch rest =>
      if decide (ch = LF) then (String LF EmptyString, rest)
      else if decide (ch = CR) then
        (String LF EmptyString,
         match rest with
         | String ch' rest' => if decide (ch' = LF) then rest' else rest
         | EmptyString => rest
         end)
      else let '(line, rest') := readline rest in (String ch line, rest')
  end.

(** [S[:-2]] *)
Fixpoint drop_last2 (s : string) : string :=
  match s with
  | String a ((String _ (String _ _)) as s') => String a (drop_last2 s')
  | _ => EmptyString
  end.

(** [ch.isspace()] for a character below 256. *)
Definition py_isspace (ch : Ascii.ascii) : bool :=
  let n := Ascii.nat_of_ascii ch in
  bool_decide (9 ≤ n ≤ 13) || bool_decide (28 ≤ n ≤ 32)
  || bool_decide (n = 133) || bool_decide (n = 160).

(** [S.split()]: the maximal runs of characters that are not white space;
    [tok] is the run being read. *)
Fixpoint py_split_from (s : string) (tok : option string) : list string :=
  match s with
  | EmptyString => match tok with Some t => [t] | None => [] end
  | String ch rest =>
      if py_isspace ch then
        match tok with
        | Some t => t :: py_split_from rest None
        | None => py_split_from rest None
        end
      else
        py_split_from rest
          (Some (match tok with
                 | Some t => t +:+ String ch EmptyString
                 | None => String ch EmptyString
                 end))
  end.

Definition py_split (s : string) : list string := py_split_from s None.

(** All characters of a text satisfy [P]. *)
Fixpoint string_forall (P : Ascii.ascii → bool) (s : string) : bool :=
  match s with
  | EmptyString => true
  | String ch rest => P ch && string_forall P rest
  end.

(** A text without line terminators, and a non-empty text without white
    space. *)
Definition no_newline (s : string) : bool :=
  string_forall (λ ch, negb (bool_decide (ch = LF)) && negb (bool_decide (ch = CR))) s.
Definition is_word (s : string) : bool :=
  negb (bool_decide (s = EmptyString)) && string_forall (λ ch, negb (py_isspace ch)) s.

Section Persistence_text.
(** Functions of the libraries. *)
Variable path_join : string → string → string.    (* os.path.join *)
Variable str_item : R → string.       (* str(s), s an entry of an array *)
Variable str_f : R → string.          (* str(self.f) *)
Variable float_of : string → option R.   (* float(s); None: ValueError *)
Variable can_write : string → bool.   (* open(path, 'w') succeeds *)

(** [S = ''; for s in a: S += str(s) + ' '] *)
Definition items_text (a : vec3) : string :=
  ((EmptyString +:+ (str_item (vx a) +:+ String SP EmptyString))
     +:+ (str_item (vy a) +:+ String SP EmptyString))
    +:+ (str_item (vz a) +:+ String SP EmptyString).

(** What the four calls of [f.write] in [camera.save] write. *)
Definition save_text (c : camera) : string :=
  (cam_name c +:+ String LF EmptyString)
    +:+ (items_text (cam_O c) +:+ String LF EmptyString)
    +:+ (items_text (cam_theta c) +:+ String LF EmptyString)
    +:+ str_f (cam_f c).

(** [camera.save]: the files after the call, by path. *)
Definition save (files : gmap string string) (c : camera) (dir_path : string)
    : io_exn + gmap string string :=
  let full_path := path_join dir_path (cam_name c) in
  if can_write full_path then inr (<[full_path := save_text c]> files)
  else inl OSError.

(** [[float(s) for s in l]] *)
Fixpoint floats_of (l : list string) : option (list R) :=
  match l with
  | [] => Some []
  | s :: l' =>
      match float_of s with
      | Some x => match floats_of l' with Some xs => Some (x :: xs) | None => None end
      | None => None
      end
  end.

(** The values that [camera.load] reads from the text of the file. *)
Definition load_values (text : string) : option (list R * list R * R) :=
  let '(_, text) := readline text in                        (* name = f.readline() *)
  let '(line, text) := readline text in
  match floats_of (py_split (drop_last2 line)) with
  | None => None
  | Some o =>
      let '(line, text) := readline text in
      match floats_of (py_split (drop_last2 line)) with
      | None => None
      | Some th =>
          let '(line, _) := readline text in
          match float_of (drop_last2 line) with
          | None => None
          | Some f => Some (o, th, f)
          end
      end
  end.

(** [camera.load] *)
Definition load_file (files : gmap string string) (c : camera) (dir_path : string)
    : load_outcome :=
  let full_path := path_join dir_path (cam_name c) in
  match files !! full_path with
  | None => Load_fails OSError
  | Some text =>
      match load_values text with
      | None => Load_fails ValueError
      | Some (o, th, f) =>
          match th with
          | [tx; ty; tz] =>
              let c' := calc_R (set_f (set_theta c (array3 tx ty tz)) f) in
              match o with
              | [ox; oy; oz] =>
                  Loaded (calc_R (set_f (set_theta (set_O c (array3 ox oy oz))
                                                   (array3 tx ty tz)) f))
              | _ => Loaded_other_shape o c'
              end
          | _ => Load_fails ValueError       (* tx,ty,tz = self.theta *)
          end
      end
  end.

(** The text of each entry of the array [a] is a word that [float] reads
    back as the entry. *)
Definition reads_back (a : vec3) : Prop :=
  ∀ x, x ∈ [vx a; vy a; vz a] →
       is_word (str_item x) = true ∧ float_of (str_item x) = Some x.
End Persistence_text.

(** A formatter and a reader of the numbers [0] and [1], for examples. *)
Definition str_bit (x : R) : string :=
  if Req_dec_T x 1 then "1.0" else "0.0".
Definition float_of_bit (s : string) : option R :=
  if decide (s = "1.0") then Some 1%R
  else if decide (s = "0.0") then Some 0%R
  else if decide (s = "1") then Some 1%R
  else None.
Definition join_slash (d n : string) : string := d +:+ "/" +:+ n.

(** * Verification *)

(** ** Algebra of 3x3 arrays *)

(** Equations between arrays are proved entry by entry. *)
Ltac break_arrays :=
  repeat match goal with
         | v : vec3 |- _ => destruct v
         | M : mat3 |- _ => destruct M
         end.

Ltac array_eq :=
  lazymatch goal with
  | |- rows3 _ _ _ = rows3 _ _ _ => f_equal; array_eq
  | |- array3 _ _ _ = array3 _ _ _ => f_equal
  | |- _ => idtac
  end.

Ltac array_unfold :=
  cbv [dot_mm dot_vm inner col0 col1 col2 transpose identity3 mscale madd
       vscale vadd vsub vdiv broadcast zeros3 det adjugate
       row0 row1 row2 vx vy vz].

Ltac array_ring :=
  intros; break_arrays; array_unfold; array_eq; try ring.

Section Algebra.
Local Open Scope R_scope.

Lemma dot_mm_assoc A B C : dot_mm (dot_mm A B) C = dot_mm A (dot_mm B C).
Proof. array_ring. Qed.

Lemma dot_vm_assoc v A B : dot_vm (dot_vm v A) B = dot_vm v (dot_mm A B).
Proof. array_ring. Qed.

Lemma dot_mm_identity_r A : dot_mm A identity3 = A.
Proof. array_ring. Qed.

Lemma dot_mm_identity_l A : dot_mm identity3 A = A.
Proof. array_ring. Qed.

Lemma dot_vm_identity v : dot_vm v identity3 = v.
Proof. array_ring. Qed.

Lemma transpose_dot_mm A B :
  transpose (dot_mm A B) = dot_mm (transpose B) (transpose A).
Proof. array_ring. Qed.

Lemma transpose_involutive A : transpose (transpose A) = A.
Proof. array_ring. Qed.

Lemma dot_vm_vscale s v A : dot_vm (vscale s v) A = vscale s (dot_vm v A).
Proof. array_ring. Qed.

Lemma dot_vm_mscale s v A : dot_vm v (mscale s A) = vscale s (dot_vm v A).
Proof. array_ring. Qed.

Lemma det_dot_mm A B : det (dot_mm A B) = det A * det B.
Proof. array_ring. Qed.

Lemma adjugate_dot_mm A : dot_mm (adjugate A) A = mscale (det A) identity3.
Proof. array_ring. Qed.

Lemma vscale_vscale s t v : vscale s (vscale t v) = vscale (s * t) v.
Proof. array_ring. Qed.

Lemma vscale_1 v : vscale 1 v = v.
Proof. array_ring. Qed.

Lemma orthonormal_dot_mm A B :
  orthonormal A → orthonormal B → orthonormal (dot_mm A B).
Proof.
  intros [HA1 HA2] [HB1 HB2]. split; rewrite transpose_dot_mm.
  - rewrite dot_mm_assoc, <- (dot_mm_assoc B), HB1, dot_mm_identity_l. exact HA1.
  - rewrite dot_mm_assoc, <- (dot_mm_assoc (transpose A)), HA2, dot_mm_identity_l.
    exact HB2.
Qed.

Ltac trig t :=
  pose proof (sin2_cos2 t) as Htrig; unfold Rsqr in Htrig;
  cbv [Rx Ry Rz dot_mm dot_vm inner col0 col1 col2 transpose identity3 det
       row0 row1 row2 vx vy vz];
  array_eq; nra.

Lemma orthonormal_Rx t : orthonormal (Rx t).
Proof. split; trig t. Qed.

Lemma orthonormal_Ry t : orthonormal (Ry t).
Proof. split; trig t. Qed.

Lemma orthonormal_Rz t : orthonormal (Rz t).
Proof. split; trig t. Qed.

Lemma det_Rx t : det (Rx t) = 1.
Proof. trig t. Qed.

Lemma det_Ry t : det (Ry t) = 1.
Proof. trig t. Qed.

Lemma det_Rz t : det (Rz t) = 1.
Proof. trig t. Qed.

Lemma orthonormal_rotation_of th : orthonormal (rotation_of th).
Proof.
  destruct th as [tx ty tz]. unfold rotation_of.
  auto using orthonormal_dot_mm, orthonormal_Rx, orthonormal_Ry, orthonormal_Rz.
Qed.

Lemma det_rotation_of th : det (rotation_of th) = 1.
Proof.
  destruct th as [tx ty tz]. unfold rotation_of.
  rewrite !det_dot_mm, det_Rx, det_Ry, det_Rz. ring.
Qed.

(** The inverse that [inv] returns is a left inverse. *)
Lemma inv_left A Ai : inv A = Ok Ai → dot_mm Ai A = identity3.
Proof.
  unfold inv. destruct (Req_dec_T (det A) 0) as [|Hd]; [discriminate|].
  intros [= <-]. revert Hd. generalize (adjugate_dot_mm A).
  generalize (det A) as dt, (adjugate A) as J. intros dt J HJ Hd.
  assert (mscale (/ dt) (dot_mm J A) = identity3) as <-.
  { rewrite HJ. cbv [mscale vscale identity3 row0 row1 row2 vx vy vz].
    array_eq; field; exact Hd. }
  clear. array_ring.
Qed.

Lemma inv_rotation_of th : ∃ Ri, inv (rotation_of th) = Ok Ri.
Proof.
  unfold inv. destruct (Req_dec_T _ 0) as [Hd|]; [|eauto].
  rewrite det_rotation_of in Hd. lra.
Qed.

(** Elemental rotations are the standard rotations about the axes. *)
Lemma Rx_standard t : Rx t = axis_rotation axis_x t.
Proof.
  cbv [Rx axis_rotation axis_x cross_matrix madd mscale dot_mm dot_vm inner
       col0 col1 col2 identity3 vadd vscale row0 row1 row2 vx vy vz].
  array_eq; ring.
Qed.

Lemma Ry_standard t : Ry t = axis_rotation axis_y t.
Proof.
  cbv [Ry axis_rotation axis_y cross_matrix madd mscale dot_mm dot_vm inner
       col0 col1 col2 identity3 vadd vscale row0 row1 row2 vx vy vz].
  array_eq; ring.
Qed.

Lemma Rz_standard t : Rz t = axis_rotation axis_z t.
Proof.
  cbv [Rz axis_rotation axis_z cross_matrix madd mscale dot_mm dot_vm inner
       col0 col1 col2 identity3 vadd vscale row0 row1 row2 vx vy vz].
  array_eq; ring.
Qed.

Lemma rotation_of_zero : rotation_of (array3 0 0 0) = identity3.
Proof.
  cbv [rotation_of Rx Ry Rz dot_mm dot_vm inner col0 col1 col2 identity3
       row0 row1 row2 vx vy vz].
  rewrite cos_0, sin_0. array_eq; ring.
Qed.
End Algebra.

(** ** The camera: rotation matrix, ray and projection *)

Section Camera_facts.
Local Open Scope R_scope.

Lemma calc_R_consistent c : consistent (calc_R c).
Proof. reflexivity. Qed.

Lemma calc_R_idempotent c : calc_R (calc_R c) = calc_R c.
Proof. reflexivity. Qed.

Lemma calc_R_of_consistent c : consistent c → calc_R c = c.
Proof. destruct c. unfold consistent, calc_R, set_R. simpl. by intros ->. Qed.

(** The inverse of an orthonormal matrix is its transpose. *)
Lemma inv_orthonormal A Ai : orthonormal A → inv A = Ok Ai → Ai = transpose A.
Proof.
  intros [HA _] Hi. apply inv_left in Hi.
  rewrite <- (dot_mm_identity_r Ai), <- HA, <- dot_mm_assoc, Hi.
  apply dot_mm_identity_l.
Qed.

Lemma camera_frame_consistent c x :
  consistent c →
  camera_frame c x = Ok (dot_vm (vsub x (cam_O c)) (transpose (cam_R c))).
Proof.
  intros Hc. unfold camera_frame. red in Hc.
  destruct (inv_rotation_of (cam_theta c)) as [Ri HRi].
  rewrite Hc, HRi. simpl. f_equal. f_equal.
  eapply inv_orthonormal; [apply orthonormal_rotation_of | done].
Qed.

(** Mapping back the camera-frame coordinates gives [x - O]. *)
Lemma camera_frame_back c x v :
  camera_frame c x = Ok v → dot_vm v (cam_R c) = vsub x (cam_O c).
Proof.
  unfold camera_frame. destruct (inv (cam_R c)) as [Ri|] eqn:Hi; [|done].
  simpl. intros [= <-]. rewrite dot_vm_assoc, (inv_left _ _ Hi).
  apply dot_vm_identity.
Qed.

Lemma get_r_ray c eta zeta :
  get_r c eta zeta =
    (dot_vm (array3 (- (eta - IZR (fst (cam_resolution c)) / 2))
                    (- (zeta - IZR (snd (cam_resolution c)) / 2))
                    (- cam_f c))
            (rotation_of (cam_theta c)),
     calc_R c).
Proof. reflexivity. Qed.
End Camera_facts.

Section Camera_claims.
Local Open Scope R_scope.

(** C7.  [calc_R] stores the product [R_x(tx) . R_y(ty) . R_z(tz)] of the
    standard right-handed rotations about the three axes, in that order,
    and writes no other attribute; for the angles [(0, 0, 0)] the stored
    matrix is the identity. *)
Theorem calc_R_rotation_matrix (c : camera) :
  cam_R (calc_R c) =
    dot_mm (dot_mm (axis_rotation axis_x (vx (cam_theta c)))
                   (axis_rotation axis_y (vy (cam_theta c))))
           (axis_rotation axis_z (vz (cam_theta c)))
  ∧ calc_R c = set_R c (cam_R (calc_R c))
  ∧ cam_R (calc_R (set_theta c (array3 0 0 0))) = identity3.
Proof.
  split; [|split].
  - rewrite <- Rx_standard, <- Ry_standard, <- Rz_standard.
    unfold calc_R. simpl. by destruct (cam_theta c).
  - reflexivity.
  - unfold calc_R. simpl. apply rotation_of_zero.
Qed.

(** C8.  The matrix that [calc_R] produces is orthonormal for every angle
    triple, and every operation that writes the matrix ([calc_R], and
    through it the constructor, [load] and [get_r]) leaves it orthonormal
    and consistent with the angles; the matrix that [get_r] reads is the
    rotation matrix of the current angles, whatever was stored before. *)
Theorem rotation_matrix_invariant :
  (∀ th, orthonormal (rotation_of th))
  ∧ (∀ c, consistent (calc_R c) ∧ orthonormal (cam_R (calc_R c))
          ∧ cam_theta (calc_R c) = cam_theta c)
  ∧ (∀ c eta zeta,
       let M := rotation_of (cam_theta c) in
       fst (get_r c eta zeta) =
         dot_vm (array3 (- (eta - IZR (fst (cam_resolution c)) / 2))
                        (- (zeta - IZR (snd (cam_resolution c)) / 2))
                        (- cam_f c)) M
       ∧ orthonormal M
       ∧ cam_R (snd (get_r c eta zeta)) = M
       ∧ cam_theta (snd (get_r c eta zeta)) = cam_theta c)
  ∧ (∀ cal name res fname,
       match camera_init cal name res fname with
       | Ok c => consistent c ∧ orthonormal (cam_R c)
       | Raise _ => True
       end)
  ∧ (∀ rd c dir_path,
       match load rd c dir_path with
       | Ok c' => consistent c' ∧ orthonormal (cam_R c')
       | Raise _ => True
       end).
Proof.
  split; [apply orthonormal_rotation_of|].
  split; [intros c; split; [reflexivity|split; [apply orthonormal_rotation_of|reflexivity]]|].
  split.
  { intros c eta zeta M. rewrite get_r_ray. simpl.
    split; [reflexivity|]. split; [apply orthonormal_rotation_of|done]. }
  split.
  - intros cal name res fname. unfold camera_init.
    destruct name; simpl; try exact I.
    destruct fname as [fname|]; simpl.
    + destruct (cal fname); simpl; [|exact I].
      split; [reflexivity|apply (orthonormal_rotation_of (array3 _ _ _))].
    + split; [reflexivity|apply (orthonormal_rotation_of (array3 _ _ _))].
  - intros rd c dir_path. unfold load.
    destruct (rd dir_path (cam_name c)) as [[[o th] f]|]; simpl; [|exact I].
    split; [reflexivity|apply orthonormal_rotation_of].
Qed.

(** C9, as amended.  [give_name] raises a [TypeError] exactly when the
    type of the argument is not [str] itself; a value of type [str] is
    stored as the name of the camera and nothing is raised.  The
    constructor, which calls [give_name], raises the same error for every
    argument whose type is not [str] and returns a camera of that name for
    a value of type [str]. *)
Theorem give_name_rejects_non_strings (c : camera) (name : pyval) :
  ((∃ msg, give_name c name = Raise (TypeError msg)) ↔ type_is_str name = false)
  ∧ ((∃ e, give_name c name = Raise e) ↔ type_is_str name = false)
  ∧ (∀ s, give_name c (PyStr s) = Ok (set_name c s) ∧ cam_name (set_name c s) = s)
  ∧ (∀ cls s, is_string (PyStrSub cls s) = true
              ∧ give_name c (PyStrSub cls s) = Raise (TypeError "name must be string"))
  ∧ (∀ cal res fname,
       ((∃ msg, camera_init cal name res None = Raise (TypeError msg))
          ↔ type_is_str name = false)
       ∧ (type_is_str name = false →
            camera_init cal name res fname = Raise (TypeError "name must be string"))
       ∧ (∀ s, name = PyStr s →
            ∃ c', camera_init cal name res None = Ok c' ∧ cam_name c' = s)).
Proof.
  split; [|split; [|split; [|split]]].
  - destruct name; simpl; split; try done; try (by intros [? ?]); eauto.
  - destruct name; simpl; split; try done; try (by intros [? ?]); eauto.
  - done.
  - done.
  - intros cal res fname. unfold camera_init. split; [|split].
    + destruct name; simpl; split; try done; try (by intros [? ?]); eauto.
    + by destruct name.
    + intros s ->. simpl. eauto.
Qed.

(** C9, as stated, fails for a string whose type is a proper subclass of
    [str]: it is a string, yet [give_name] raises [TypeError] and stores
    nothing. *)
Lemma give_name_rejects_str_subclass :
  is_string numpy_name = true
  ∧ give_name unit_camera numpy_name = Raise (TypeError "name must be string")
  ∧ ¬ ((∃ msg, give_name unit_camera numpy_name = Raise (TypeError msg))
       ↔ is_string numpy_name = false).
Proof.
  split; [reflexivity|]. split; [reflexivity|].
  intros [Hraise _]. discriminate Hraise. by eexists.
Qed.

(** C1, as amended.  For a camera whose rotation matrix is consistent
    with its angles and whose focal depth is not [0], and a lab point [x]
    whose camera-frame coordinate [v] has [v.z <> 0], [projection]
    returns pixel coordinates, and the direction that [get_r] returns at
    them is a nonzero multiple of [x - O]: [x] lies on the ray. *)
Theorem projection_get_r_roundtrip (c : camera) (x v : vec3) :
  consistent c → cam_f c ≠ 0 → camera_frame c x = Ok v → vz v ≠ 0 →
  ∃ eta zeta,
    projection c x = Ok (eta, zeta)
    ∧ (∃ t, t ≠ 0 ∧ fst (get_r c eta zeta) = vscale t (vsub x (cam_O c)))
    ∧ on_line (cam_O c) (fst (get_r c eta zeta)) x.
Proof.
  intros Hc Hf Hv Hz. unfold projection. rewrite Hv. cbn [result_bind].
  eexists _, _. split; [reflexivity|].
  set (a := -1 * vz v / cam_f c).
  assert (a ≠ 0) as Ha.
  { unfold a. intros H0. apply Hz.
    apply (Rmult_eq_compat_r (cam_f c)) in H0. field_simplify in H0; lra. }
  assert (fst (get_r c ((-1 * vx v) / a + IZR (fst (cam_resolution c)) / 2)
                       ((-1 * vy v) / a + IZR (snd (cam_resolution c)) / 2))
          = vscale (/ a) (vsub x (cam_O c))) as Hr.
  { rewrite get_r_ray. simpl. rewrite <- (camera_frame_back _ _ _ Hv).
    rewrite <- Hc, <- dot_vm_vscale. f_equal.
    unfold vscale. simpl. array_eq; unfold a; field; auto. }
  split.
  - exists (/ a). split; [by apply Rinv_neq_0_compat|exact Hr].
  - exists a. rewrite Hr, vscale_vscale.
    replace (a * / a) with 1 by (field; exact Ha).
    rewrite vscale_1. destruct x, (cam_O c). array_unfold. array_eq; ring.
Qed.

Lemma projection_get_r_roundtrip_witness :
  ∃ eta zeta,
    projection unit_camera axis_point = Ok (eta, zeta)
    ∧ (∃ t, t ≠ 0 ∧ fst (get_r unit_camera eta zeta)
                      = vscale t (vsub axis_point (cam_O unit_camera)))
    ∧ on_line (cam_O unit_camera) (fst (get_r unit_camera eta zeta)) axis_point.
Proof.
  assert (consistent unit_camera) as Hc by (symmetry; apply rotation_of_zero).
  apply (projection_get_r_roundtrip unit_camera axis_point
           (dot_vm (vsub axis_point (cam_O unit_camera))
                   (transpose (cam_R unit_camera)))).
  - exact Hc.
  - simpl. lra.
  - apply camera_frame_consistent, Hc.
  - cbv [unit_camera axis_point cam_O cam_R]. array_unfold. lra.
Defined.

(** C1, as stated, fails for a camera of focal depth [0]: the rotation
    matrix is consistent and the point is off the focal plane, but the
    direction returned at the projected pixel is the zero vector, and the
    point is not on the line it spans. *)
Lemma roundtrip_fails_without_focal_depth :
  consistent flat_camera
  ∧ off_focal_plane flat_camera axis_point
  ∧ ¬ roundtrip flat_camera axis_point.
Proof.
  assert (consistent flat_camera) as Hc by (symmetry; apply rotation_of_zero).
  assert (camera_frame flat_camera axis_point = Ok axis_point) as Hv.
  { rewrite camera_frame_consistent by exact Hc.
    f_equal. unfold flat_camera, axis_point. array_unfold. simpl.
    array_eq; ring. }
  split; [exact Hc|]. split.
  - exists axis_point. split; [exact Hv|]. simpl. lra.
  - intros (eta & zeta & Hp & t & Ht).
    unfold projection in Hp. rewrite Hv in Hp. cbn [result_bind] in Hp.
    injection Hp as <- <-.
    rewrite get_r_ray in Ht. cbn [fst] in Ht.
    change (cam_theta flat_camera) with (array3 0 0 0) in Ht.
    rewrite rotation_of_zero, dot_vm_identity in Ht.
    apply (f_equal vz) in Ht. simpl in Ht. lra.
Qed.
End Camera_claims.

(** ** The enumeration of camera pairs *)

Section Enumeration.
Lemma lookup_total_seq (rest pre : list Z) :
  (λ j, (pre ++ rest) !!! j) <$> seq (length pre) (length rest) = rest.
Proof.
  revert pre. induction rest as [|k rest IH]; intros pre; simpl; [done|].
  f_equal.
  - by rewrite list_lookup_total_middle.
  - specialize (IH (pre ++ [k])).
    rewrite <- app_assoc, length_app in IH. simpl in IH.
    by rewrite Nat.add_1_r in IH.
Qed.

Lemma index_pairs_from (l pre : list Z) :
  concat ((λ i, (λ j, ((pre ++ l) !!! i, (pre ++ l) !!! j))
                  <$> py_range (i + 1) (length (pre ++ l)))
            <$> seq (length pre) (length l))
  = all_pairs l.
Proof.
  revert pre. induction l as [|k rest IH]; intros pre; simpl; [done|].
  f_equal.
  - rewrite list_lookup_total_middle by done.
    unfold py_range. rewrite length_app. simpl.
    replace (length pre + S (length rest) - (length pre + 1)) with (length rest) by lia.
    pose proof (lookup_total_seq rest (pre ++ [k])) as H.
    rewrite <- app_assoc, length_app in H. simpl in H.
    rewrite <- H at 2. by rewrite <- list_fmap_compose.
  - specialize (IH (pre ++ [k])).
    rewrite <- app_assoc, !length_app in IH. simpl in IH.
    rewrite Nat.add_1_r in IH. rewrite length_app. simpl. exact IH.
Qed.

(** The two loops visit the pairs of [all_pairs], in its order. *)
Lemma index_pairs_all_pairs keys : index_pairs keys = all_pairs keys.
Proof.
  unfold index_pairs, py_range. rewrite Nat.sub_0_r.
  apply (index_pairs_from keys []).
Qed.

Lemma choose2_S n : choose2 (S n) = n + choose2 n.
Proof.
  unfold choose2.
  replace (S n * (S n - 1)) with (n * (n - 1) + n * 2) by (destruct n; simpl; lia).
  rewrite Nat.div_add by done. lia.
Qed.

Lemma all_pairs_length keys : length (all_pairs keys) = choose2 (length keys).
Proof.
  induction keys as [|k rest IH]; [done|].
  cbn [all_pairs length]. by rewrite choose2_S, length_app, length_fmap, IH.
Qed.

Lemma all_pairs_elem keys a b :
  (a, b) ∈ all_pairs keys → a ∈ keys ∧ b ∈ keys.
Proof.
  induction keys as [|k rest IH]; simpl; [by intros ?%elem_of_nil|].
  rewrite elem_of_app, list_elem_of_fmap. intros [(b' & [= -> ->] & Hb)|H].
  - split; [left|by right].
  - destruct (IH H). split; by right.
Qed.

(** With distinct keys the two members of a pair differ, no pair occurs
    twice, and of a pair and its mirror image only one occurs. *)
Lemma all_pairs_distinct keys a b :
  NoDup keys → (a, b) ∈ all_pairs keys → a ≠ b ∧ (b, a) ∉ all_pairs keys.
Proof.
  induction keys as [|k rest IH]; simpl; [by intros _ ?%elem_of_nil|].
  intros [Hk Hnd]%NoDup_cons.
  rewrite !elem_of_app, !list_elem_of_fmap.
  intros [(b' & [= -> ->] & Hb)|H].
  - split; [by intros ->|].
    intros [(a' & [= -> ->] & _)|[_ Hk']%all_pairs_elem]; by apply Hk.
  - destruct (IH Hnd H) as [Hab Hba]. split; [done|].
    intros [(a' & [= -> ->] & _)|?]; [|by apply Hba].
    apply all_pairs_elem in H as [? ?]. by apply Hk.
Qed.

Lemma all_pairs_NoDup keys : NoDup keys → NoDup (all_pairs keys).
Proof.
  induction keys as [|k rest IH]; simpl; [constructor|].
  intros [Hk Hnd]%NoDup_cons. apply NoDup_app. split_and!.
  - apply NoDup_fmap_2; [by intros ?? [= ->]|done].
  - intros [a b] (b' & [= -> ->] & _)%list_elem_of_fmap [? _]%all_pairs_elem. done.
  - auto.
Qed.

(** Every two distinct keys form a pair, in one order or the other. *)
Lemma all_pairs_complete keys a b :
  a ∈ keys → b ∈ keys → a ≠ b → (a, b) ∈ all_pairs keys ∨ (b, a) ∈ all_pairs keys.
Proof.
  induction keys as [|k rest IH]; simpl; [by intros ?%elem_of_nil|].
  rewrite !elem_of_cons, !elem_of_app, !list_elem_of_fmap.
  intros [->|Ha] [->|Hb] Hab; [done|left|right|]; eauto.
  destruct (IH Ha Hb Hab); auto.
Qed.
End Enumeration.

(** ** The loops of [stereo_match] *)

Section Stereo_facts.
Variable line_dist : vec3 → vec3 → vec3 → vec3 → R * vec3.
Variable sys : img_system.
Variable coords : dict.
Variable d_max : R.

Lemma get_r_calc_R c c0 eta zeta :
  calc_R c = calc_R c0 →
  get_r c eta zeta = (ray c0 (eta, zeta), calc_R c).
Proof.
  intros Hc. unfold ray. rewrite !get_r_ray. simpl.
  assert (cam_resolution c = cam_resolution c0) as -> by apply (f_equal cam_resolution Hc).
  assert (cam_f c = cam_f c0) as -> by apply (f_equal cam_f Hc).
  by assert (cam_theta c = cam_theta c0) as -> by apply (f_equal cam_theta Hc).
Qed.

Lemma camera_at_refreshed cs cs0 k :
  calc_R <$> cs = calc_R <$> cs0 →
  match camera_at cs0 k with
  | Some (i, c0) =>
      ∃ c, camera_at cs k = Some (i, c) ∧ calc_R c = calc_R c0 ∧ cs !! i = Some c
  | None => camera_at cs k = None
  end.
Proof.
  intros Hcs. unfold camera_at.
  assert (length cs = length cs0) as ->.
  { apply (f_equal length) in Hcs. by rewrite !length_fmap in Hcs. }
  destruct (py_index (length cs0) k) as [i|]; [|done].
  apply (f_equal (.!! i)) in Hcs. rewrite !list_lookup_fmap in Hcs.
  destruct (cs0 !! i) as [c0|], (cs !! i) as [c|]; simpl in Hcs; try done.
  exists c. split_and!; [done| |done]. congruence.
Qed.

Lemma cameras_getitem_spec w k :
  refreshes sys w →
  match resolve sys k with
  | Some c0 => ∃ c, cameras_getitem k w = Ok (c, w) ∧ cam_O c = cam_O c0
  | None => cameras_getitem k w = Raise IndexError
  end.
Proof.
  intros Hw. unfold resolve, cameras_getitem.
  pose proof (camera_at_refreshed _ _ k Hw) as H.
  destruct (camera_at (cameras sys) k) as [[i c0]|]; simpl.
  - destruct H as (c & -> & Hc & _). exists c. split; [done|].
    apply (f_equal cam_O Hc).
  - by rewrite H.
Qed.

Lemma cameras_get_r_spec w k eta zeta :
  refreshes sys w →
  match resolve sys k with
  | Some c0 =>
      ∃ w', cameras_get_r k eta zeta w = Ok (ray c0 (eta, zeta), w')
            ∧ refreshes sys w' ∧ calls w' = calls w
  | None => cameras_get_r k eta zeta w = Raise IndexError
  end.
Proof.
  intros Hw. unfold resolve, cameras_get_r.
  pose proof (camera_at_refreshed _ _ k Hw) as H.
  destruct (camera_at (cameras sys) k) as [[i c0]|];
    cbn [fmap option_fmap option_map snd].
  - destruct H as (c & -> & Hc & Hi). rewrite (get_r_calc_R _ _ _ _ Hc).
    eexists. split; [reflexivity|]. split; [|done].
    unfold refreshes in *. cbn [self cameras]. rewrite list_fmap_insert, <- Hw.
    apply list_insert_id. by rewrite list_lookup_fmap, Hi.
  - by rewrite H.
Qed.

Lemma alist_find_key (l : list (Z * pixel)) k :
  k ∈ l.*1 → is_Some (alist_find l k).
Proof.
  induction l as [|[k' v] l IH]; simpl.
  - by intros ?%elem_of_nil.
  - intros Hk. case_decide; [eauto|].
    apply elem_of_cons in Hk as [?|?]; [congruence|auto].
Qed.

Lemma dict_getitem_key w k :
  k ∈ dict_keys coords →
  ∃ p, alist_find (dict_items coords) k = Some p ∧ dict_getitem coords k w = Ok (p, w).
Proof.
  intros [p Hp]%alist_find_key. exists p. split; [done|].
  unfold dict_getitem. by rewrite Hp.
Qed.

(** One pass through the loop body. *)
Lemma pair_step_spec i j ki kj loc w :
  dict_keys coords !! i = Some ki → dict_keys coords !! j = Some kj →
  refreshes sys w →
  loop_outcome line_dist sys coords d_max [(ki, kj)]
    (pair_step line_dist coords d_max (dict_keys coords) i j loc w) loc w.
Proof.
  intros Hi Hj Hw.
  assert (pair_call sys coords (ki, kj) = None →
          ¬ Forall (λ kk, is_Some (pair_call sys coords kk)) [(ki, kj)]) as Hno.
  { intros HN [[? ?] _]%Forall_cons. congruence. }
  assert (is_Some (pair_call sys coords (ki, kj)) →
          Forall (λ kk, is_Some (pair_call sys coords kk)) [(ki, kj)]) as Hyes
    by (by repeat constructor).
  destruct (dict_getitem_key w ki) as (p1 & Hp1 & Hg1);
    [by eapply list_elem_of_lookup_2|].
  unfold loop_outcome.
  set (All := Forall (λ kk, is_Some (pair_call sys coords kk)) [(ki, kj)]) in *.
  clearbody All. revert Hno Hyes.
  unfold pair_step, step_locals, pair_dist, pair_call, bind, list_getitem.
  rewrite Hi, Hj. cbn [ret fst snd foldl omap list_omap]. rewrite Hp1.
  pose proof (cameras_getitem_spec w ki Hw) as H1.
  pose proof (cameras_get_r_spec w ki p1.1 p1.2 Hw) as H2.
  destruct (resolve sys ki) as [c1|]; cbn [mbind option_bind];
    [|intros Hno _; right; rewrite H1; split; [by apply Hno|done]].
  destruct H1 as (c1' & -> & HO1).
  rewrite Hg1.
  destruct H2 as (w1 & -> & Hw1 & Hc1).
  destruct (dict_getitem_key w1 kj) as (p2 & Hp2 & Hg2);
    [by eapply list_elem_of_lookup_2|].
  rewrite Hp2.
  pose proof (cameras_getitem_spec w1 kj Hw1) as H3.
  pose proof (cameras_get_r_spec w1 kj p2.1 p2.2 Hw1) as H4.
  destruct (resolve sys kj) as [c2|]; cbn [mbind option_bind];
    [|intros Hno _; right; rewrite H3; split; [by apply Hno|done]].
  destruct H3 as (c2' & -> & HO2).
  rewrite Hg2.
  destruct H4 as (w2 & -> & Hw2 & Hc2).
  intros _ Hyes. left. split; [by apply Hyes|].
  unfold call_line_dist. rewrite HO1, HO2.
  destruct p1 as [e1 z1], p2 as [e2 z2]. cbn [fst snd fmap option_fmap option_map].
  destruct (line_dist (cam_O c1) (ray c1 (e1, z1)) (cam_O c2) (ray c2 (e2, z2)))
    as [D x_ij] eqn:HD.
  eexists. split.
  { destruct (Rle_dec D d_max); reflexivity. }
  split; [done|]. simpl. by rewrite Hc2, Hc1.
Qed.

(** A loop over items, each of which visits a list of pairs. *)
Lemma for_each_outcome {A : Type} (h : A → list (Z * Z))
    (body : A → locals → M locals) (l : list A) :
  (∀ a loc w, a ∈ l → refreshes sys w →
     loop_outcome line_dist sys coords d_max (h a) (body a loc w) loc w) →
  ∀ loc w, refreshes sys w →
    loop_outcome line_dist sys coords d_max (concat (h <$> l))
      (for_each l body loc w) loc w.
Proof.
  induction l as [|a l IH]; intros Hbody loc w Hw; simpl.
  - left. split; [constructor|]. exists w. by rewrite app_nil_r.
  - unfold bind.
    destruct (Hbody a loc w) as [(Ha & w1 & -> & Hw1 & Hc1)|[Ha ->]];
      [by left|done| |].
    + destruct (IH (λ a' s' w' Ha', Hbody a' s' w' (list_elem_of_further _ _ _ Ha'))
                   (foldl (step_locals line_dist sys coords d_max) loc (h a)) w1 Hw1)
        as [(Hl & w2 & -> & Hw2 & Hc2)|[Hl ->]].
      * left. split; [by apply Forall_app|]. exists w2.
        rewrite foldl_app. split_and!; [done..|].
        by rewrite Hc2, Hc1, omap_app, <- app_assoc.
      * right. split; [|done]. by intros [? ?]%Forall_app.
    + right. split; [|done]. by intros [? ?]%Forall_app.
Qed.

Lemma concat_singletons {A B : Type} (h : A → B) (l : list A) :
  concat ((λ a, [h a]) <$> l) = h <$> l.
Proof. induction l; simpl; by f_equal. Qed.

(** The two loops of [stereo_match]. *)
Lemma stereo_loops_spec loc0 w :
  refreshes sys w →
  loop_outcome line_dist sys coords d_max (all_pairs (dict_keys coords))
    (for_each (py_range 0 (dict_len coords)) (λ i loc,
       for_each (py_range (i + 1) (dict_len coords)) (λ j loc,
         pair_step line_dist coords d_max (dict_keys coords) i j loc) loc) loc0 w)
    loc0 w.
Proof.
  intros Hw. rewrite <- index_pairs_all_pairs. unfold index_pairs.
  assert (length (dict_keys coords) = dict_len coords) as HN
    by apply length_fmap.
  rewrite HN.
  apply (for_each_outcome
           (λ i, (λ j, (dict_keys coords !!! i, dict_keys coords !!! j))
                   <$> py_range (i + 1) (dict_len coords))); [|done].
  intros i loc w1 Hi Hw1.
  rewrite <- concat_singletons.
  apply (for_each_outcome
           (λ j, [(dict_keys coords !!! i, dict_keys coords !!! j)])); [|done].
  intros j loc' w2 Hj Hw2.
  apply pair_step_spec; [| |done].
  - apply list_lookup_lookup_total_lt. rewrite HN.
    unfold py_range in Hi. apply elem_of_seq in Hi. lia.
  - apply list_lookup_lookup_total_lt. rewrite HN.
    unfold py_range in Hj. apply elem_of_seq in Hj. lia.
Qed.
End Stereo_facts.

(** ** The result of [stereo_match] *)

Section Sums.
Local Open Scope R_scope.

Lemma foldl_vadd a (x : list vec3) :
  foldl vadd a x = vadd a (foldr vadd zeros3 x).
Proof.
  revert a. induction x as [|v x IH]; intros a; simpl.
  - array_ring.
  - rewrite IH. generalize (foldr vadd zeros3 x). array_ring.
Qed.

Lemma foldl_Rplus a (d : list R) : foldl Rplus a d = a + foldr Rplus 0 d.
Proof.
  revert a. induction d as [|v d IH]; intros a; simpl; [lra|].
  rewrite IH. lra.
Qed.

(** [sum(x)/1.0/len(x)] is the arithmetic mean. *)
Lemma py_mean_arrays (x : list vec3) :
  vdiv (vdiv (py_sum_arrays x) 1) (INR (length x)) = mean_arrays x.
Proof.
  unfold py_sum_arrays, mean_arrays. rewrite foldl_vadd.
  generalize (foldr vadd zeros3 x) as v, (INR (length x)) as n.
  intros [a b c] n. array_unfold. unfold Rdiv. rewrite Rinv_1. array_eq; ring.
Qed.

Lemma py_mean (d : list R) (n : nat) :
  py_sum d / 1 / INR n = foldr Rplus 0 d / INR n.
Proof.
  unfold py_sum. rewrite foldl_Rplus. unfold Rdiv. rewrite Rinv_1. ring.
Qed.
End Sums.

Section Stereo_result.
Variable line_dist : vec3 → vec3 → vec3 → vec3 → R * vec3.
Variable sys : img_system.
Variable coords : dict.
Variable d_max : R.

#[local] Abbreviation retained_of l := (filter (is_retained line_dist sys coords d_max) l).
#[local] Abbreviation points := (points_of line_dist sys coords).
#[local] Abbreviation dists := (dists_of line_dist sys coords).
#[local] Abbreviation step := (step_locals line_dist sys coords d_max).

(** The local variables after the loops hold the candidate points, the
    camera numbers and the distances of the retained pairs, in order. *)
Lemma foldl_step_locals (l : list (Z * Z)) (loc : locals) :
  foldl step loc l =
    Locals (loc_x loc ++ points (retained_of l))
           (loc_cams loc ++ cams_of (retained_of l))
           (loc_d loc ++ dists (retained_of l)).
Proof.
  revert loc. induction l as [|kk l IH]; intros loc; simpl.
  - rewrite !app_nil_r. by destruct loc.
  - rewrite IH. unfold step_locals.
    destruct (pair_dist line_dist sys coords kk) as [[D x]|] eqn:HD.
    + destruct (Rle_dec D d_max) as [Hle|Hgt].
      * rewrite filter_cons_True by (unfold is_retained; by rewrite HD).
        unfold points_of, dists_of. simpl. rewrite HD. simpl.
        by rewrite <- !app_assoc.
      * rewrite filter_cons_False by (unfold is_retained; by rewrite HD).
        done.
    + rewrite filter_cons_False by (unfold is_retained; rewrite HD; tauto).
      done.
Qed.

Lemma retained_lengths_of (l : list (Z * Z)) :
  Forall (is_retained line_dist sys coords d_max) l →
  length (points l) = length l ∧ length (dists l) = length l.
Proof.
  induction 1 as [|kk l Hr _ [IH1 IH2]]; [done|].
  unfold is_retained in Hr. unfold points_of, dists_of in *. simpl.
  destruct (pair_dist line_dist sys coords kk) as [[D x]|]; [|done].
  split; simpl; f_equal; [exact IH1|exact IH2].
Qed.

Lemma retained_lengths (l : list (Z * Z)) :
  length (points (retained_of l)) = length (retained_of l)
  ∧ length (dists (retained_of l)) = length (retained_of l).
Proof.
  apply retained_lengths_of, Forall_forall.
  by intros kk [? _]%list_elem_of_filter.
Qed.

(** [stereo_match] from any state whose cameras are those of [sys]. *)
Lemma stereo_match_spec (w : world) :
  refreshes sys w →
  (pairs_defined sys coords
   ∧ ∃ w', stereo_match line_dist coords d_max w
             = Ok (consensus line_dist sys coords d_max, w')
           ∧ refreshes sys w'
           ∧ calls w' = calls w
               ++ omap (pair_call sys coords) (all_pairs (dict_keys coords)))
  ∨ (¬ pairs_defined sys coords
     ∧ stereo_match line_dist coords d_max w = Raise IndexError).
Proof.
  intros Hw. unfold stereo_match, stereo_loops, bind.
  destruct (stereo_loops_spec line_dist sys coords d_max (Locals [] [] []) w Hw)
    as [(Hd & w' & -> & Hw' & Hc)|[Hd ->]]; [left|by right].
  split; [done|]. exists w'. split; [|done].
  rewrite foldl_step_locals. cbn [loc_x loc_cams loc_d app].
  unfold consensus, retained.
  set (l := retained_of (all_pairs (dict_keys coords))).
  destruct (retained_lengths (all_pairs (dict_keys coords))) as [Hx Hd'].
  fold l in Hx, Hd'.
  destruct (decide (l = [])) as [->|Hne].
  - done.
  - rewrite bool_decide_true by (rewrite Hx; destruct l; simpl; [done|lia]).
    unfold ret. rewrite py_mean_arrays, py_mean. unfold mean.
    by rewrite Hx, Hd'.
Qed.

(** What the caller observes. *)
Lemma stereo_match_value_spec :
  stereo_match_value line_dist sys coords d_max =
    if decide (pairs_defined sys coords)
    then Ok (consensus line_dist sys coords d_max)
    else Raise IndexError.
Proof.
  unfold stereo_match_value.
  destruct (stereo_match_spec (World sys [])) as [(Hd & w' & -> & _)|[Hd ->]];
    [done|by rewrite decide_True|by rewrite decide_False].
Qed.
End Stereo_result.

(** ** Properties of [stereo_match] *)

Section Stereo_claims.
Variable line_dist : vec3 → vec3 → vec3 → vec3 → R * vec3.

Lemma known_cameras_pairs_defined sys coords :
  known_cameras sys coords → pairs_defined sys coords.
Proof.
  intros Hk. apply Forall_forall. intros [a b] [Ha Hb]%all_pairs_elem.
  unfold pair_call. simpl.
  destruct (Hk a Ha) as [c1 ->], (Hk b Hb) as [c2 ->].
  destruct (alist_find_key (dict_items coords) a Ha) as [p1 ->].
  destruct (alist_find_key (dict_items coords) b Hb) as [p2 ->].
  by eexists.
Qed.

Lemma consensus_None sys coords d_max :
  consensus line_dist sys coords d_max = None
  ↔ retained line_dist sys coords d_max = [].
Proof. unfold consensus. by case_decide. Qed.

Lemma too_far_not_retained sys coords d_max l :
  Forall (too_far line_dist sys coords d_max) l →
  filter (is_retained line_dist sys coords d_max) l = [].
Proof.
  induction 1 as [|kk l (D & x & HD & Hgt) _ IH]; [done|].
  rewrite filter_cons_False; [done|].
  unfold is_retained. rewrite HD. lra.
Qed.

Lemma too_far_pairs_defined sys coords d_max :
  Forall (too_far line_dist sys coords d_max) (all_pairs (dict_keys coords)) →
  pairs_defined sys coords.
Proof.
  intros Hfar. eapply Forall_impl; [exact Hfar|].
  intros kk (D & x & HD & _). unfold pair_dist in HD.
  destruct (pair_call sys coords kk); [by eexists|done].
Qed.

(** The pair of the two-camera example. *)
Lemma two_views_pairs : all_pairs (dict_keys two_views) = [(0, 1)%Z].
Proof. reflexivity. Qed.

Lemma two_views_pair_call :
  pair_call stereo_pair two_views (0, 1)%Z =
    Some (cam_O left_camera, ray left_camera centre,
          cam_O right_camera, ray right_camera centre).
Proof. reflexivity. Qed.

Lemma two_views_pair_dist :
  pair_dist line_dist stereo_pair two_views (0, 1)%Z =
    Some (line_dist (cam_O left_camera) (ray left_camera centre)
                    (cam_O right_camera) (ray right_camera centre)).
Proof. unfold pair_dist. by rewrite two_views_pair_call. Qed.

(** C10.  With fewer than two observations [stereo_match] enters the
    loop body for no pair: it raises nothing, calls neither [get_r] nor
    [line_dist] (the state is unchanged, whatever the camera numbers are)
    and returns [None], the value that a call with two observations whose
    rays are too far apart returns as well. *)
Theorem stereo_match_few_observations (coords : dict) (d_max : R) (w : world) :
  dict_len coords < 2 →
  stereo_match line_dist coords d_max w = Ok (None, w)
  ∧ all_pairs (dict_keys coords) = []
  ∧ ∃ sys' coords' d',
      dict_len coords' = 2
      ∧ Forall (too_far line_dist sys' coords' d') (all_pairs (dict_keys coords'))
      ∧ stereo_match_value line_dist sys' coords' d'
        = stereo_match_value line_dist (self w) coords d_max.
Proof.
  intros Hlen.
  assert (stereo_match line_dist coords d_max w = Ok (None, w)
          ∧ all_pairs (dict_keys coords) = []) as [Hrun Hnil].
  { unfold stereo_match, stereo_loops, dict_keys, dict_len in *.
    destruct (dict_items coords) as [|e [|e' l]]; simpl in Hlen; [done|done|lia]. }
  split; [done|]. split; [done|].
  set (D := fst (line_dist (cam_O left_camera) (ray left_camera centre)
                           (cam_O right_camera) (ray right_camera centre))).
  assert (Forall (too_far line_dist stereo_pair two_views (D - 1))
                 (all_pairs (dict_keys two_views))) as Hfar.
  { rewrite two_views_pairs. repeat constructor.
    unfold too_far. rewrite two_views_pair_dist. subst D.
    destruct (line_dist _ _ _ _) as [D' x']. exists D', x'.
    split; [done|]. simpl. lra. }
  exists stereo_pair, two_views, (D - 1)%R. split; [done|]. split; [exact Hfar|].
  rewrite !stereo_match_value_spec.
  rewrite decide_True by by eapply too_far_pairs_defined.
  rewrite decide_True by (unfold pairs_defined; rewrite Hnil; constructor).
  f_equal. transitivity (@None (vec3 * gset Z * R)); [|symmetry];
    apply consensus_None; unfold retained.
  - by apply too_far_not_retained.
  - by rewrite Hnil.
Qed.

(** C5.  When the distance of every enumerated pair strictly exceeds
    [d_max], no pair is retained and [stereo_match] returns [None] without
    raising; for every threshold, [None] is returned exactly when no pair
    is retained. *)
Theorem stereo_match_no_consensus (sys : img_system) (coords : dict) (d_max : R) :
  Forall (too_far line_dist sys coords d_max) (all_pairs (dict_keys coords)) →
  stereo_match_value line_dist sys coords d_max = Ok None
  ∧ retained line_dist sys coords d_max = []
  ∧ ∀ d, stereo_match_value line_dist sys coords d = Ok None
         ↔ retained line_dist sys coords d = [].
Proof.
  intros Hfar.
  assert (∀ d, stereo_match_value line_dist sys coords d = Ok None
               ↔ retained line_dist sys coords d = []) as Hiff.
  { intros d. rewrite stereo_match_value_spec.
    rewrite decide_True by by eapply too_far_pairs_defined.
    rewrite <- consensus_None. split; [by intros [= ->]|by intros ->]. }
  assert (retained line_dist sys coords d_max = []) as Hnil
    by by apply too_far_not_retained.
  split; [by apply Hiff|]. done.
Qed.

Lemma omap_pair_call sys coords (l : list (Z * Z)) :
  Forall (λ kk, is_Some (pair_call sys coords kk)) l →
  Forall2 (λ kk call, pair_call sys coords kk = Some call) l
          (omap (pair_call sys coords) l).
Proof.
  induction 1 as [|kk l [call Hcall] _ IH]; simpl.
  - constructor.
  - rewrite Hcall. by constructor.
Qed.

(** C3.  When at least one pair is retained (all camera numbers of the
    mapping naming cameras of the system), [stereo_match] returns the
    mean of the candidate points of the retained pairs, the set of the
    cameras that occur in a retained pair, each once, and the mean of the
    distances of the retained pairs. *)
Theorem stereo_match_aggregate (sys : img_system) (coords : dict) (d_max : R) :
  known_cameras sys coords →
  retained line_dist sys coords d_max ≠ [] →
  let l := retained line_dist sys coords d_max in
  let cams : gset Z := list_to_set (cams_of l) in
  stereo_match_value line_dist sys coords d_max
    = Ok (Some (mean_arrays (points_of line_dist sys coords l), cams,
                mean (dists_of line_dist sys coords l)))
  ∧ length (points_of line_dist sys coords l) = length l
  ∧ length (dists_of line_dist sys coords l) = length l
  ∧ (∀ k, k ∈ cams ↔ ∃ kk, kk ∈ l ∧ (k = kk.1 ∨ k = kk.2))
  ∧ NoDup (elements cams).
Proof.
  intros Hk Hne l cams. split_and!.
  - rewrite stereo_match_value_spec.
    rewrite decide_True by by apply known_cameras_pairs_defined.
    unfold consensus. by rewrite decide_False.
  - apply retained_lengths.
  - apply retained_lengths.
  - intros k. unfold cams. rewrite elem_of_list_to_set. unfold cams_of.
    rewrite list_elem_of_In, in_flat_map. split.
    + intros (kk & Hkk%list_elem_of_In & Hin%list_elem_of_In). exists kk.
      split; [done|].
      apply elem_of_cons in Hin as [->|Hin]; [by left|].
      apply elem_of_cons in Hin as [->|Hin]; [by right|].
      by apply elem_of_nil in Hin.
    + intros (kk & Hkk & Hin). exists kk. split; [by apply list_elem_of_In|].
      apply list_elem_of_In.
      destruct Hin as [->| ->]; [left|right; left].
  - apply NoDup_elements.
Qed.

(** C2.  With exactly two observations whose rays are at a distance
    [D <= d_max], [stereo_match] returns the candidate point that
    [line_dist] computes for the pair, the set of the two camera numbers
    and [D] itself. *)
Theorem stereo_match_two_cameras (sys : img_system) (coords : dict) (d_max : R)
    (k1 k2 : Z) (p1 p2 : pixel) (c1 c2 : camera) (D : R) (x : vec3) :
  dict_items coords = [(k1, p1); (k2, p2)] →
  resolve sys k1 = Some c1 → resolve sys k2 = Some c2 →
  line_dist (cam_O c1) (ray c1 p1) (cam_O c2) (ray c2 p2) = (D, x) →
  (D <= d_max)%R →
  stereo_match_value line_dist sys coords d_max = Ok (Some (x, {[k1; k2]}, D)).
Proof.
  intros Hitems Hc1 Hc2 HD Hle.
  assert (k1 ≠ k2) as Hne.
  { pose proof (dict_nodup coords) as Hnd. rewrite Hitems in Hnd.
    apply NoDup_cons in Hnd as [Hnd _]. intros ->. apply Hnd. by left. }
  assert (pair_call sys coords (k1, k2)
          = Some (cam_O c1, ray c1 p1, cam_O c2, ray c2 p2)) as Hcall.
  { unfold pair_call. rewrite Hitems. simpl. rewrite Hc1, Hc2. simpl.
    repeat case_decide; by simplify_eq. }
  assert (pair_dist line_dist sys coords (k1, k2) = Some (D, x)) as Hdist.
  { unfold pair_dist. rewrite Hcall. simpl. by rewrite HD. }
  rewrite stereo_match_value_spec.
  rewrite decide_True; last first.
  { unfold pairs_defined, dict_keys. rewrite Hitems. simpl.
    repeat constructor. rewrite Hcall. by eexists. }
  unfold consensus, retained, dict_keys. rewrite Hitems. simpl.
  rewrite filter_cons_True by (unfold is_retained; by rewrite Hdist).
  rewrite filter_nil, decide_False by done.
  unfold points_of, dists_of, mean_arrays, mean. simpl. rewrite Hdist. simpl.
  do 3 f_equal; [f_equal|].
  - destruct x. array_unfold. array_eq; field.
  - by rewrite union_empty_r_L.
  - field.
Qed.

(** C4.  When the camera numbers of the mapping name cameras of the
    system, the loops of [stereo_match] call [line_dist] once for each
    of the [C(N,2)] pairs of distinct cameras, in the order of
    enumeration, with the locations of the two cameras and the rays that
    [get_r] returns at their own pixels; the candidate point, the
    distance and the camera numbers of a pair are appended exactly when
    its distance [D] satisfies [D <= d_max]. *)
Theorem stereo_match_exhaustive_pairs (sys : img_system) (coords : dict) (d_max : R) :
  known_cameras sys coords →
  let keys := dict_keys coords in
  ∃ loc w',
    stereo_loops line_dist coords d_max (World sys []) = Ok (loc, w')
    ∧ Forall2 (λ kk call, pair_call sys coords kk = Some call) (all_pairs keys) (calls w')
    ∧ length (calls w') = choose2 (dict_len coords)
    ∧ NoDup (all_pairs keys)
    ∧ (∀ a b, (a, b) ∈ all_pairs keys →
              a ∈ keys ∧ b ∈ keys ∧ a ≠ b ∧ (b, a) ∉ all_pairs keys)
    ∧ (∀ a b, a ∈ keys → b ∈ keys → a ≠ b →
              (a, b) ∈ all_pairs keys ∨ (b, a) ∈ all_pairs keys)
    ∧ loc_x loc = points_of line_dist sys coords (retained line_dist sys coords d_max)
    ∧ loc_d loc = dists_of line_dist sys coords (retained line_dist sys coords d_max)
    ∧ loc_cams loc = cams_of (retained line_dist sys coords d_max)
    ∧ (∀ kk, kk ∈ all_pairs keys →
         ∃ D x, pair_dist line_dist sys coords kk = Some (D, x)
                ∧ (kk ∈ retained line_dist sys coords d_max ↔ (D <= d_max)%R)).
Proof.
  intros Hk keys.
  pose proof (known_cameras_pairs_defined _ _ Hk) as Hdef.
  pose proof (dict_nodup coords) as Hnd. fold (dict_keys coords) in Hnd.
  destruct (stereo_loops_spec line_dist sys coords d_max (Locals [] [] [])
              (World sys []) eq_refl)
    as [(_ & w' & Hrun & _ & Hc)|[Hno _]]; [|done].
  simpl in Hc.
  exists (foldl (step_locals line_dist sys coords d_max) (Locals [] [] [])
                (all_pairs keys)), w'.
  assert (Forall2 (λ kk call, pair_call sys coords kk = Some call)
                  (all_pairs keys) (calls w')) as Hcalls.
  { rewrite Hc. by apply omap_pair_call. }
  split_and!.
  - exact Hrun.
  - exact Hcalls.
  - rewrite <- (Forall2_length _ _ _ Hcalls), all_pairs_length.
    unfold keys, dict_keys, dict_len. by rewrite length_fmap.
  - by apply all_pairs_NoDup.
  - intros a b Hab. destruct (all_pairs_elem _ _ _ Hab).
    destruct (all_pairs_distinct _ _ _ Hnd Hab). done.
  - apply all_pairs_complete.
  - by rewrite foldl_step_locals.
  - by rewrite foldl_step_locals.
  - by rewrite foldl_step_locals.
  - intros kk Hkk.
    destruct (proj1 (Forall_forall _ _) Hdef kk Hkk) as [call Hcall].
    destruct (pair_dist line_dist sys coords kk) as [[D x]|] eqn:HD;
      [|unfold pair_dist in HD; by rewrite Hcall in HD].
    exists D, x. split; [done|]. unfold retained.
    rewrite list_elem_of_filter. unfold is_retained. rewrite HD. tauto.
Qed.
End Stereo_claims.

(** ** Independence of the iteration order *)

Section Order.
Variable line_dist : vec3 → vec3 → vec3 → vec3 → R * vec3.
Hypothesis line_dist_sym : symmetric line_dist.
Variable sys : img_system.

Lemma alist_find_Some (l : list (Z * pixel)) k v :
  NoDup (l.*1) → alist_find l k = Some v ↔ (k, v) ∈ l.
Proof.
  induction l as [|[k' v'] l IH]; simpl.
  - intros _. split; [done|by intros ?%elem_of_nil].
  - intros [Hk' Hnd]%NoDup_cons. rewrite elem_of_cons. case_decide as Hk.
    + subst k'. split; [intros [= ->]; by left|].
      intros [[= ->]|Hin]; [done|].
      destruct Hk'. apply list_elem_of_fmap. by exists (k, v).
    + rewrite (IH Hnd). split; [by right|]. by intros [[= -> ->]|?].
Qed.

Lemma alist_find_perm (l l' : list (Z * pixel)) k :
  NoDup (l.*1) → l ≡ₚ l' → alist_find l k = alist_find l' k.
Proof.
  intros Hnd Hp.
  assert (NoDup (l'.*1)) as Hnd' by by rewrite <- Hp.
  apply option_eq. intros v.
  by rewrite !alist_find_Some, Hp by done.
Qed.

Lemma pair_call_perm (coords coords' : dict) kk :
  dict_items coords ≡ₚ dict_items coords' →
  pair_call sys coords kk = pair_call sys coords' kk.
Proof.
  intros Hp. unfold pair_call.
  by rewrite !(alist_find_perm _ _ _ (dict_nodup coords) Hp).
Qed.

Lemma pair_dist_swap (coords : dict) a b :
  pair_dist line_dist sys coords (a, b) = pair_dist line_dist sys coords (b, a).
Proof.
  unfold pair_dist, pair_call. simpl.
  destruct (resolve sys a), (alist_find (dict_items coords) a),
           (resolve sys b), (alist_find (dict_items coords) b); simpl; try done.
  f_equal. apply line_dist_sym.
Qed.

Lemma summary_swap (coords : dict) d_max a b :
  summary line_dist sys coords d_max (a, b) = summary line_dist sys coords d_max (b, a).
Proof.
  unfold summary. rewrite (pair_dist_swap coords a b). simpl.
  by rewrite (union_comm_L {[a]} {[b]}).
Qed.

(** A function of pairs that ignores their orientation takes the same
    values, up to order, on the pairs of a permuted list of keys. *)
Lemma all_pairs_perm {B : Type} (c : Z * Z → B) (l l' : list Z) :
  (∀ a b, c (a, b) = c (b, a)) →
  l ≡ₚ l' → c <$> all_pairs l ≡ₚ c <$> all_pairs l'.
Proof.
  intros Hc. induction 1 as [|k l l' Hp IH|k1 k2 l|l1 l2 l3 _ IH1 _ IH2]; simpl.
  - done.
  - rewrite !fmap_app, IH, <- !list_fmap_compose. by rewrite Hp.
  - rewrite !fmap_app, <- !list_fmap_compose. simpl. rewrite (Hc k2 k1).
    apply Permutation_skip.
    rewrite !(assoc_L (++)). apply Permutation_app_tail, Permutation_app_comm.
  - by etrans.
Qed.

Section Fixed_coords.
Variable coords : dict.
Variable d_max : R.

#[local] Abbreviation ret_of l := (filter (is_retained line_dist sys coords d_max) l).
#[local] Abbreviation summaries l := (omap (summary line_dist sys coords d_max) l).

Lemma retained_summaries (l : list (Z * Z)) :
  points_of line_dist sys coords (ret_of l) = (summaries l).*1.*1
  ∧ dists_of line_dist sys coords (ret_of l) = (summaries l).*1.*2
  ∧ list_to_set (cams_of (ret_of l)) = ⋃ ((summaries l).*2)
  ∧ length (ret_of l) = length (summaries l).
Proof.
  induction l as [|kk l (IH1 & IH2 & IH3 & IH4)]; [done|].
  unfold summary, points_of, dists_of in *. simpl.
  destruct (pair_dist line_dist sys coords kk) as [[D x]|] eqn:HD.
  - destruct (Rle_dec D d_max) as [Hle|Hgt].
    + rewrite filter_cons_True by (unfold is_retained; by rewrite HD).
      simpl. rewrite HD. simpl.
      split_and!; [f_equal; exact IH1|f_equal; exact IH2| |f_equal; exact IH4].
      etrans; [apply (assoc_L (∪))|]. f_equal. exact IH3.
    + by rewrite filter_cons_False by (unfold is_retained; by rewrite HD).
  - by rewrite filter_cons_False by (unfold is_retained; rewrite HD; tauto).
Qed.

(** The result of the specification, from the contributions. *)
Lemma consensus_aggregate :
  consensus line_dist sys coords d_max
  = aggregate (summaries (all_pairs (dict_keys coords))).
Proof.
  unfold consensus, aggregate, retained, mean_arrays, mean.
  destruct (retained_summaries (all_pairs (dict_keys coords)))
    as (H1 & H2 & H3 & H4).
  destruct (retained_lengths line_dist sys coords d_max
              (all_pairs (dict_keys coords))) as [Hx Hd].
  rewrite Hx, Hd, H1, H2, H3, H4.
  set (l := ret_of (all_pairs (dict_keys coords))) in *.
  set (ss := summaries (all_pairs (dict_keys coords))) in *.
  destruct (decide (l = [])) as [Hl|Hl], (decide (ss = [])) as [Hs|Hs];
    try done.
  - rewrite Hl in H4. by destruct ss.
  - rewrite Hs in H4. by destruct l.
Qed.
End Fixed_coords.

Lemma omap_fmap_id {A B : Type} (f : A → option B) (l : list A) :
  omap f l = omap (λ o, o) (f <$> l).
Proof.
  induction l as [|a l IH]; [done|]. simpl. destruct (f a); simpl; by f_equal.
Qed.

Lemma foldr_vadd_perm (l l' : list vec3) :
  l ≡ₚ l' → foldr vadd zeros3 l = foldr vadd zeros3 l'.
Proof.
  induction 1 as [|x l l' _ IH|x y l|l1 l2 l3 _ IH1 _ IH2]; simpl.
  - done.
  - by rewrite IH.
  - generalize (foldr vadd zeros3 l). array_ring.
  - by etrans.
Qed.

Lemma foldr_Rplus_perm (l l' : list R) :
  l ≡ₚ l' → foldr Rplus 0%R l = foldr Rplus 0%R l'.
Proof.
  induction 1 as [|x l l' _ IH|x y l|l1 l2 l3 _ IH1 _ IH2]; simpl.
  - done.
  - by rewrite IH.
  - lra.
  - by etrans.
Qed.

Lemma union_list_perm (l l' : list (gset Z)) : l ≡ₚ l' → ⋃ l = ⋃ l'.
Proof.
  induction 1 as [|x l l' _ IH|x y l|l1 l2 l3 _ IH1 _ IH2]; simpl.
  - done.
  - by rewrite IH.
  - by rewrite !(assoc_L (∪)), (union_comm_L x y).
  - by etrans.
Qed.

Lemma aggregate_perm (ss ss' : list (vec3 * R * gset Z)) :
  ss ≡ₚ ss' → aggregate ss = aggregate ss'.
Proof.
  intros Hp. unfold aggregate.
  rewrite (Permutation_length Hp).
  rewrite (foldr_vadd_perm (ss.*1.*1) (ss'.*1.*1)) by by rewrite Hp.
  rewrite (foldr_Rplus_perm (ss.*1.*2) (ss'.*1.*2)) by by rewrite Hp.
  rewrite (union_list_perm (ss.*2) (ss'.*2)) by by rewrite Hp.
  destruct (decide (ss = [])) as [->|Hs], (decide (ss' = [])) as [->|Hs'];
    try done.
  - apply Permutation_nil_l in Hp. by subst.
  - apply Permutation_nil_r in Hp. by subst.
Qed.

(** C6.  For a [line_dist] that does not depend on the order of the two
    lines, permuting the iteration order of the observations does not
    change what [stereo_match] returns (the averaged point, the set of
    cameras and the mean distance) or raises. *)
Theorem stereo_match_order_invariant (coords coords' : dict) (d_max : R) :
  dict_items coords ≡ₚ dict_items coords' →
  stereo_match_value line_dist sys coords d_max
  = stereo_match_value line_dist sys coords' d_max.
Proof.
  intros Hp.
  assert (dict_keys coords ≡ₚ dict_keys coords') as Hkeys
    by (unfold dict_keys; by rewrite Hp).
  rewrite !stereo_match_value_spec, !consensus_aggregate.
  assert (∀ l : list (Z * Z),
            omap (summary line_dist sys coords' d_max) l
            = omap (summary line_dist sys coords d_max) l) as Hsum.
  { intros l. apply list_omap_ext, Forall_Forall2_diag, Forall_forall.
    intros kk _. unfold summary, pair_dist.
    by rewrite (pair_call_perm coords coords' kk Hp). }
  rewrite Hsum.
  rewrite (aggregate_perm
             (omap (summary line_dist sys coords d_max) (all_pairs (dict_keys coords')))
             (omap (summary line_dist sys coords d_max) (all_pairs (dict_keys coords)))).
  2:{ rewrite !(omap_fmap_id (summary line_dist sys coords d_max)).
      apply omap_Permutation, all_pairs_perm; [|done].
      intros a b. apply summary_swap. }
  assert (pairs_defined sys coords ↔ pairs_defined sys coords') as Hdef.
  { unfold pairs_defined.
    set (c := λ kk, bool_decide (is_Some (pair_call sys coords kk))).
    assert (∀ co l, dict_items coords ≡ₚ dict_items co →
              Forall (λ kk, is_Some (pair_call sys co kk)) l
              ↔ Forall Is_true (c <$> l)) as Hc.
    { intros co l Hco. rewrite Forall_fmap. apply Forall_proper; [|done].
      intros kk. unfold c. simpl.
      rewrite <- (pair_call_perm coords co kk Hco).
      by rewrite bool_decide_spec. }
    rewrite (Hc coords _ (reflexivity _)), (Hc coords' _ Hp).
    assert (c <$> all_pairs (dict_keys coords) ≡ₚ c <$> all_pairs (dict_keys coords')) as ->;
      [|done].
    apply all_pairs_perm; [|done].
    intros a b. unfold c. apply bool_decide_ext.
    pose proof (pair_dist_swap coords a b) as Hsw. unfold pair_dist in Hsw.
    rewrite <- !(fmap_is_Some (λ '(O1, r1, O2, r2), line_dist O1 r1 O2 r2)).
    by rewrite Hsw. }
  destruct (decide (pairs_defined sys coords)), (decide (pairs_defined sys coords'));
    tauto || done.
Qed.
End Order.

(** ** The two-camera system as an instance *)

Section Instances.
Local Open Scope R_scope.

Lemma inner_comm u v : inner u v = inner v u.
Proof. array_ring. Qed.

Lemma inner_vsub_opp a b r : inner (vsub a b) r = - inner (vsub b a) r.
Proof. array_ring. Qed.

(** The closest approach of two lines does not depend on their order. *)
Lemma closestApproach_symmetric : symmetric closestApproach.
Proof.
  intros O1 r1 O2 r2. unfold closestApproach. cbv zeta.
  rewrite (inner_comm r2 r1), (inner_vsub_opp O1 O2 r2), (inner_vsub_opp O1 O2 r1).
  set (B0 := inner (vsub O2 O1) r1). set (B1 := inner (vsub O2 O1) r2).
  set (r12 := inner r1 r1). set (r22 := inner r2 r2). set (r1r2 := inner r1 r2).
  replace (- r12 * r22 + r1r2 * r1r2) with (- r22 * r12 + r1r2 * r1r2) by ring.
  set (den := - r22 * r12 + r1r2 * r1r2).
  replace ((- r12 * - B1 + r1r2 * - B0) / den)
    with ((- r1r2 * B0 + r12 * B1) / den) by (unfold Rdiv; ring).
  replace ((- r1r2 * - B1 + r22 * - B0) / den)
    with ((- r22 * B0 + r1r2 * B1) / den) by (unfold Rdiv; ring).
  generalize ((- r22 * B0 + r1r2 * B1) / den) as t,
             ((- r1r2 * B0 + r12 * B1) / den) as s.
  clear. intros t s. f_equal; [f_equal|]; array_ring.
Qed.

Lemma stereo_pair_known : known_cameras stereo_pair two_views.
Proof.
  intros k Hk. unfold dict_keys in Hk. simpl in Hk.
  apply elem_of_cons in Hk as [->|Hk]; [by eexists|].
  apply elem_of_cons in Hk as [->|Hk]; [by eexists|].
  by apply elem_of_nil in Hk.
Qed.

Lemma two_views_retained :
  retained closestApproach stereo_pair two_views two_views_dist = [(0, 1)%Z].
Proof.
  unfold retained. rewrite two_views_pairs.
  apply filter_singleton_True; [exact []|].
  unfold is_retained. rewrite two_views_pair_dist. unfold two_views_dist.
  destruct (closestApproach _ _ _ _). simpl. lra.
Qed.

Lemma stereo_match_two_cameras_witness :
  stereo_match_value closestApproach stereo_pair two_views two_views_dist
  = Ok (Some (snd (closestApproach (cam_O left_camera) (ray left_camera centre)
                                   (cam_O right_camera) (ray right_camera centre)),
              {[0%Z; 1%Z]}, two_views_dist)).
Proof.
  apply (stereo_match_two_cameras closestApproach stereo_pair two_views two_views_dist
           0 1 centre centre left_camera right_camera).
  - reflexivity.
  - reflexivity.
  - reflexivity.
  - unfold two_views_dist. by destruct (closestApproach _ _ _ _).
  - lra.
Defined.

Lemma stereo_match_aggregate_witness :
  let l := retained closestApproach stereo_pair two_views two_views_dist in
  let cams : gset Z := list_to_set (cams_of l) in
  stereo_match_value closestApproach stereo_pair two_views two_views_dist
    = Ok (Some (mean_arrays (points_of closestApproach stereo_pair two_views l), cams,
                mean (dists_of closestApproach stereo_pair two_views l)))
  ∧ length (points_of closestApproach stereo_pair two_views l) = length l
  ∧ length (dists_of closestApproach stereo_pair two_views l) = length l
  ∧ (∀ k, k ∈ cams ↔ ∃ kk, kk ∈ l ∧ (k = kk.1 ∨ k = kk.2))
  ∧ NoDup (elements cams).
Proof.
  apply (stereo_match_aggregate closestApproach stereo_pair two_views two_views_dist).
  - exact stereo_pair_known.
  - by rewrite two_views_retained.
Defined.

Lemma stereo_match_exhaustive_pairs_witness :
  ∃ loc w',
    stereo_loops closestApproach two_views two_views_dist (World stereo_pair [])
      = Ok (loc, w')
    ∧ calls w' = [(cam_O left_camera, ray left_camera centre,
                   cam_O right_camera, ray right_camera centre)]
    ∧ loc_cams loc = [0; 1]%Z.
Proof.
  destruct (stereo_match_exhaustive_pairs closestApproach stereo_pair two_views
              two_views_dist stereo_pair_known)
    as (loc & w' & Hrun & Hcalls & _ & _ & _ & _ & _ & _ & Hcams & _).
  exists loc, w'. split; [exact Hrun|]. split.
  - rewrite two_views_pairs in Hcalls.
    apply Forall2_cons_inv_l in Hcalls as (call & rest & Hcall & Hrest & ->).
    apply Forall2_nil_inv_l in Hrest as ->.
    rewrite two_views_pair_call in Hcall. by injection Hcall as <-.
  - by rewrite Hcams, two_views_retained.
Defined.

Lemma stereo_match_no_consensus_witness :
  stereo_match_value closestApproach stereo_pair two_views (two_views_dist - 1) = Ok None
  ∧ retained closestApproach stereo_pair two_views (two_views_dist - 1) = []
  ∧ ∀ d, stereo_match_value closestApproach stereo_pair two_views d = Ok None
         ↔ retained closestApproach stereo_pair two_views d = [].
Proof.
  apply (stereo_match_no_consensus closestApproach stereo_pair two_views
           (two_views_dist - 1)).
  rewrite two_views_pairs. repeat constructor.
  unfold too_far. rewrite two_views_pair_dist. unfold two_views_dist.
  destruct (closestApproach _ _ _ _) as [D x]. exists D, x. split; [done|].
  simpl. lra.
Defined.

Lemma stereo_match_few_observations_witness :
  stereo_match closestApproach one_view 0 (World stereo_pair [])
    = Ok (None, World stereo_pair [])
  ∧ all_pairs (dict_keys one_view) = []
  ∧ ∃ sys' coords' d',
      dict_len coords' = 2%nat
      ∧ Forall (too_far closestApproach sys' coords' d') (all_pairs (dict_keys coords'))
      ∧ stereo_match_value closestApproach sys' coords' d'
        = stereo_match_value closestApproach stereo_pair one_view 0.
Proof.
  apply (stereo_match_few_observations closestApproach one_view 0 (World stereo_pair [])).
  unfold dict_len. simpl. lia.
Defined.

Lemma stereo_match_order_invariant_witness :
  stereo_match_value closestApproach stereo_pair two_views two_views_dist
  = stereo_match_value closestApproach stereo_pair two_views_swapped two_views_dist.
Proof.
  apply (stereo_match_order_invariant closestApproach closestApproach_symmetric
           stereo_pair two_views two_views_swapped two_views_dist).
  apply Permutation_swap.
Defined.
End Instances.

(** * Further properties of the camera *)

Section Camera_geometry.
Local Open Scope R_scope.

Lemma inner_dot_vm u v M :
  inner (dot_vm u M) (dot_vm v M) = inner (dot_vm u (dot_mm M (transpose M))) v.
Proof. array_ring. Qed.

Lemma inner_rotation u v th :
  inner (dot_vm u (rotation_of th)) (dot_vm v (rotation_of th)) = inner u v.
Proof.
  rewrite inner_dot_vm.
  destruct (orthonormal_rotation_of th) as [-> _]. by rewrite dot_vm_identity.
Qed.

Lemma inner_self_zero u : inner u u = 0 → u = zeros3.
Proof.
  destruct u as [a b c]. unfold inner, zeros3. simpl. intros H.
  assert (a = 0) by nra. assert (b = 0) by nra. assert (c = 0) by nra.
  by subst.
Qed.

Lemma vsub_vadd_l o u : vsub (vadd o u) o = u.
Proof. array_ring. Qed.

Lemma camera_frame_vscale c x v t :
  camera_frame c x = Ok v →
  camera_frame c (vadd (cam_O c) (vscale t (vsub x (cam_O c)))) = Ok (vscale t v).
Proof.
  unfold camera_frame. destruct (inv (cam_R c)) as [Ri|]; [|done].
  simpl. intros [= <-]. by rewrite vsub_vadd_l, dot_vm_vscale.
Qed.

(** X1.  The direction that [get_r] returns has the squared length
    [eta_^2 + zeta_^2 + f^2] of the vector it rotates, whatever the angles
    and the stored matrix are: it is the zero vector only at the centre
    pixel of a camera of focal depth [0]. *)
Theorem get_r_squared_length (c : camera) (eta zeta : R) :
  let r := fst (get_r c eta zeta) in
  let eta_ := eta - IZR (fst (cam_resolution c)) / 2 in
  let zeta_ := zeta - IZR (snd (cam_resolution c)) / 2 in
  inner r r = eta_ * eta_ + zeta_ * zeta_ + cam_f c * cam_f c
  ∧ (r = zeros3 ↔ eta_ = 0 ∧ zeta_ = 0 ∧ cam_f c = 0).
Proof.
  intros r eta_ zeta_.
  assert (inner r r = eta_ * eta_ + zeta_ * zeta_ + cam_f c * cam_f c) as Hlen.
  { unfold r. rewrite get_r_ray. cbn [fst]. rewrite inner_rotation.
    unfold inner, eta_, zeta_. simpl. ring. }
  split; [exact Hlen|]. split.
  - intros Hr. rewrite Hr in Hlen. unfold inner, zeros3 in Hlen. simpl in Hlen.
    split_and!; nra.
  - intros (H1 & H2 & H3). apply inner_self_zero. rewrite Hlen, H1, H2, H3. ring.
Qed.

(** X2.  The matrix that [calc_R] stores is a proper rotation: its
    determinant is [1], and [inv] returns its transpose without raising. *)
Theorem calc_R_proper_rotation (c : camera) :
  det (cam_R (calc_R c)) = 1
  ∧ inv (cam_R (calc_R c)) = Ok (transpose (cam_R (calc_R c))).
Proof.
  unfold calc_R. simpl. split; [apply det_rotation_of|].
  destruct (inv_rotation_of (cam_theta c)) as [Ri HRi]. rewrite HRi. f_equal.
  eapply inv_orthonormal; [apply orthonormal_rotation_of|exact HRi].
Qed.

(** X3.  The pinhole formula: for a camera whose matrix is consistent with
    its angles, with focal depth [f <> 0], and a point whose camera-frame
    coordinate [v = (x - O) . R^T] has [v.z <> 0], [projection] raises
    nothing and returns [(f v.x / v.z + w/2, f v.y / v.z + h/2)]. *)
Theorem projection_pinhole (c : camera) (x : vec3) :
  let v := dot_vm (vsub x (cam_O c)) (transpose (cam_R c)) in
  consistent c → cam_f c ≠ 0 → vz v ≠ 0 →
  projection c x = Ok (cam_f c * vx v / vz v + IZR (fst (cam_resolution c)) / 2,
                       cam_f c * vy v / vz v + IZR (snd (cam_resolution c)) / 2).
Proof.
  intros v Hc Hf Hz. unfold projection.
  rewrite (camera_frame_consistent c x Hc). fold v. cbn [result_bind].
  do 2 f_equal; field; auto.
Qed.

Lemma projection_pinhole_witness :
  let v := dot_vm (vsub axis_point (cam_O unit_camera)) (transpose (cam_R unit_camera)) in
  projection unit_camera axis_point
  = Ok (cam_f unit_camera * vx v / vz v + IZR (fst (cam_resolution unit_camera)) / 2,
        cam_f unit_camera * vy v / vz v + IZR (snd (cam_resolution unit_camera)) / 2).
Proof.
  apply (projection_pinhole unit_camera axis_point).
  - symmetry. apply rotation_of_zero.
  - simpl. lra.
  - cbv [unit_camera axis_point cam_O cam_R]. array_unfold. lra.
Defined.

(** X4.  From a pixel to its ray and back: for a consistent camera of
    focal depth [f <> 0], every point [O + t r] with [t <> 0] of the ray
    [r = get_r(eta, zeta)] is projected onto the pixel [(eta, zeta)]. *)
Theorem get_r_projection_roundtrip (c : camera) (eta zeta t : R) :
  consistent c → cam_f c ≠ 0 → t ≠ 0 →
  projection c (vadd (cam_O c) (vscale t (fst (get_r c eta zeta)))) = Ok (eta, zeta).
Proof.
  intros Hc Hf Ht. rewrite get_r_ray. cbn [fst].
  set (u := array3 (- (eta - IZR (fst (cam_resolution c)) / 2))
                   (- (zeta - IZR (snd (cam_resolution c)) / 2)) (- cam_f c)).
  unfold projection.
  rewrite (camera_frame_consistent c _ Hc), vsub_vadd_l, dot_vm_vscale, dot_vm_assoc.
  rewrite Hc. destruct (orthonormal_rotation_of (cam_theta c)) as [-> _].
  rewrite dot_vm_identity. cbn [result_bind]. unfold u. simpl.
  do 2 f_equal; field; auto.
Qed.

Lemma get_r_projection_roundtrip_witness :
  projection unit_camera
    (vadd (cam_O unit_camera) (vscale 2 (fst (get_r unit_camera 3 4)))) = Ok (3, 4).
Proof.
  apply (get_r_projection_roundtrip unit_camera 3 4 2).
  - symmetry. apply rotation_of_zero.
  - simpl. lra.
  - lra.
Defined.

(** X5.  All points of a line through the camera location have the same
    image: when [x] has the camera-frame coordinate [v] with [v.z <> 0] and
    the focal depth is not [0], [projection] at [O + t (x - O)], [t <> 0],
    returns what it returns at [x]. *)
Theorem projection_along_ray (c : camera) (x v : vec3) (t : R) :
  camera_frame c x = Ok v → vz v ≠ 0 → cam_f c ≠ 0 → t ≠ 0 →
  projection c (vadd (cam_O c) (vscale t (vsub x (cam_O c)))) = projection c x.
Proof.
  intros Hv Hz Hf Ht. unfold projection.
  rewrite (camera_frame_vscale c x v t Hv), Hv. cbn [result_bind].
  destruct v as [a b d]. simpl in *. do 2 f_equal; field; auto.
Qed.

Lemma projection_along_ray_witness :
  projection unit_camera
    (vadd (cam_O unit_camera) (vscale 3 (vsub axis_point (cam_O unit_camera))))
  = projection unit_camera axis_point.
Proof.
  assert (consistent unit_camera) as Hc by (symmetry; apply rotation_of_zero).
  apply (projection_along_ray unit_camera axis_point
           (dot_vm (vsub axis_point (cam_O unit_camera)) (transpose (cam_R unit_camera)))).
  - apply camera_frame_consistent, Hc.
  - cbv [unit_camera axis_point cam_O cam_R]. array_unfold. lra.
  - simpl. lra.
  - lra.
Defined.
End Camera_geometry.

(** * Further properties of [stereo_match] *)

Section Stereo_more.
Variable line_dist : vec3 → vec3 → vec3 → vec3 → R * vec3.
Variable sys : img_system.
Variable coords : dict.

(** A number names a camera exactly when it is a valid subscript of the
    list of cameras, counted from the front or from the end. *)
Lemma resolve_None (k : Z) :
  resolve sys k = None
  ↔ ¬ (- Z.of_nat (length (cameras sys)) ≤ k < Z.of_nat (length (cameras sys)))%Z.
Proof.
  unfold resolve, camera_at, py_index.
  set (n := length (cameras sys)).
  repeat case_bool_decide.
  - destruct (lookup_lt_is_Some_2 (cameras sys) (Z.to_nat k)) as [c ->]; [lia|].
    simpl. split; [done|lia].
  - destruct (lookup_lt_is_Some_2 (cameras sys) (Z.to_nat (k + Z.of_nat n)))
      as [c ->]; [lia|].
    simpl. split; [done|lia].
  - simpl. split; [lia|done].
Qed.

Lemma all_pairs_cover (keys : list Z) (k : Z) :
  2 ≤ length keys → k ∈ keys →
  ∃ a b, (a, b) ∈ all_pairs keys ∧ (k = a ∨ k = b).
Proof.
  destruct keys as [|a [|b rest]]; intros Hlen Hk; [simpl in Hlen; lia..|].
  change (all_pairs (a :: b :: rest))
    with ((pair a <$> (b :: rest)) ++ all_pairs (b :: rest)).
  apply elem_of_cons in Hk as [->|Hk].
  - exists a, b. split; [|by left]. apply elem_of_app. left.
    apply list_elem_of_fmap. exists b. split; [done|by left].
  - exists a, k. split; [|by right].
    apply elem_of_app. left. apply list_elem_of_fmap. by exists k.
Qed.

Lemma pair_call_is_Some a b :
  a ∈ dict_keys coords → b ∈ dict_keys coords →
  is_Some (pair_call sys coords (a, b))
  ↔ is_Some (resolve sys a) ∧ is_Some (resolve sys b).
Proof.
  intros Ha Hb. unfold pair_call. simpl.
  destruct (alist_find_key (dict_items coords) a Ha) as [p1 ->].
  destruct (alist_find_key (dict_items coords) b Hb) as [p2 ->].
  destruct (resolve sys a), (resolve sys b); simpl; split;
    try (intros [? ?]; done); try (intros [[? ?] [? ?]]; done); eauto.
Qed.

Lemma pairs_defined_iff :
  pairs_defined sys coords ↔ dict_len coords < 2 ∨ known_cameras sys coords.
Proof.
  assert (length (dict_keys coords) = dict_len coords) as HN by apply length_fmap.
  split.
  - intros Hd. destruct (decide (dict_len coords < 2)) as [|Hlen]; [by left|right].
    intros k Hk.
    destruct (all_pairs_cover (dict_keys coords) k) as (a & b & Hab & Hkab);
      [lia|done|].
    pose proof (proj1 (Forall_forall _ _) Hd _ Hab) as Hsome.
    destruct (all_pairs_elem _ _ _ Hab) as [Ha Hb].
    apply pair_call_is_Some in Hsome as [? ?]; [|done..].
    by destruct Hkab as [-> | ->].
  - intros [Hlen|Hk]; [|by apply known_cameras_pairs_defined].
    unfold pairs_defined. rewrite <- HN in Hlen.
    destruct (dict_keys coords) as [|a [|b rest]]; simpl in *;
      [constructor|constructor|lia].
Qed.

(** X6.  The only exception that [stereo_match] raises is [IndexError],
    and it raises it exactly when there are at least two observations and
    one of the camera numbers is out of the range of the camera list. *)
Theorem stereo_match_raises (d_max : R) :
  let n := Z.of_nat (length (cameras sys)) in
  (stereo_match_value line_dist sys coords d_max = Raise IndexError
   ↔ 2 ≤ dict_len coords ∧ ∃ k, k ∈ dict_keys coords ∧ ¬ (- n ≤ k < n)%Z)
  ∧ (∀ e, stereo_match_value line_dist sys coords d_max = Raise e → e = IndexError).
Proof.
  intros n. rewrite stereo_match_value_spec.
  destruct (decide (pairs_defined sys coords)) as [Hd|Hd].
  - split; [|done]. split; [done|]. intros (Hlen & k & Hk & Hout).
    apply pairs_defined_iff in Hd as [?|Hkn]; [lia|].
    destruct (Hkn k Hk) as [c Hc]. apply resolve_None in Hout. congruence.
  - split; [|by intros e [= <-]]. split; [|done]. intros _.
    rewrite pairs_defined_iff in Hd.
    split; [lia|].
    destruct (decide (Forall (λ k, is_Some (resolve sys k)) (dict_keys coords)))
      as [Hall|Hex].
    + destruct Hd. right. intros k Hk. by apply (proj1 (Forall_forall _ _) Hall).
    + apply not_Forall_Exists in Hex; [|apply _].
      apply Exists_exists in Hex as (k & Hk & Hno). exists k. split; [done|].
      apply resolve_None. destruct (resolve sys k) eqn:Hres; [|done].
      destruct Hno. by eexists.
Qed.

Lemma retained_elem d_max kk :
  kk ∈ retained line_dist sys coords d_max
  ↔ kk ∈ all_pairs (dict_keys coords) ∧ is_retained line_dist sys coords d_max kk.
Proof. unfold retained. rewrite list_elem_of_filter. tauto. Qed.

Lemma cams_of_elem (l : list (Z * Z)) k :
  k ∈ cams_of l ↔ ∃ kk, kk ∈ l ∧ (k = kk.1 ∨ k = kk.2).
Proof.
  unfold cams_of. rewrite list_elem_of_In, in_flat_map. split.
  - intros (kk & Hkk%list_elem_of_In & Hin%list_elem_of_In). exists kk.
    split; [done|].
    apply elem_of_cons in Hin as [->|Hin]; [by left|].
    apply elem_of_cons in Hin as [->|Hin]; [by right|].
    by apply elem_of_nil in Hin.
  - intros (kk & Hkk & Hin). exists kk. split; [by apply list_elem_of_In|].
    apply list_elem_of_In. destruct Hin as [->| ->]; [left|right; left].
Qed.

(** What a returned triple is. *)
Lemma stereo_match_value_Some d_max X (cams : gset Z) dist :
  stereo_match_value line_dist sys coords d_max = Ok (Some (X, cams, dist)) →
  pairs_defined sys coords
  ∧ retained line_dist sys coords d_max ≠ []
  ∧ X = mean_arrays (points_of line_dist sys coords (retained line_dist sys coords d_max))
  ∧ cams = list_to_set (cams_of (retained line_dist sys coords d_max))
  ∧ dist = mean (dists_of line_dist sys coords (retained line_dist sys coords d_max)).
Proof.
  rewrite stereo_match_value_spec. case_decide as Hd; [|done].
  unfold consensus. case_decide as Hr; [done|]. by intros [= <- <- <-].
Qed.

(** X7.  The set of cameras that [stereo_match] returns has at least two
    members, each of them a key of the observations that names a camera of
    the system. *)
Theorem stereo_match_cams (d_max : R) (X : vec3) (cams : gset Z) (dist : R) :
  stereo_match_value line_dist sys coords d_max = Ok (Some (X, cams, dist)) →
  2 ≤ size cams
  ∧ ∀ k, k ∈ cams → k ∈ dict_keys coords ∧ is_Some (resolve sys k).
Proof.
  intros (Hd & Hne & _ & -> & _)%stereo_match_value_Some.
  assert (∀ kk, kk ∈ retained line_dist sys coords d_max →
            kk.1 ∈ dict_keys coords ∧ kk.2 ∈ dict_keys coords ∧ kk.1 ≠ kk.2
            ∧ is_Some (resolve sys kk.1) ∧ is_Some (resolve sys kk.2)) as Hkk.
  { intros [a b] [Hab _]%retained_elem. simpl.
    destruct (all_pairs_elem _ _ _ Hab) as [Ha Hb].
    destruct (all_pairs_distinct _ _ _ (dict_nodup coords) Hab) as [Hne' _].
    pose proof (proj1 (Forall_forall _ _) Hd _ Hab) as Hsome.
    apply pair_call_is_Some in Hsome as [? ?]; done. }
  split.
  - destruct (retained line_dist sys coords d_max) as [|[a b] l] eqn:Hl; [done|].
    destruct (Hkk (a, b)) as (_ & _ & Hab & _); [by left|]. simpl in Hab.
    transitivity (size ({[a; b]} : gset Z)).
    + rewrite size_union, !size_singleton; [done|].
      apply disjoint_singleton_l. by intros ?%elem_of_singleton.
    + apply subseteq_size. intros k Hk. apply elem_of_list_to_set, cams_of_elem.
      exists (a, b). split; [by left|]. simpl.
      apply elem_of_union in Hk as [->%elem_of_singleton| ->%elem_of_singleton]; auto.
  - intros k Hk. apply elem_of_list_to_set, cams_of_elem in Hk as (kk & Hin & Hor).
    destruct (Hkk kk Hin) as (? & ? & _ & ? & ?). by destruct Hor as [-> | ->].
Qed.

(** X8.  Raising the threshold loses nothing: when [stereo_match] returns
    a point for [d_max], it returns a point for every larger threshold,
    with at least the same cameras. *)
Theorem stereo_match_threshold_monotone (d_max d_max' : R)
    (X : vec3) (cams : gset Z) (dist : R) :
  (d_max <= d_max')%R →
  stereo_match_value line_dist sys coords d_max = Ok (Some (X, cams, dist)) →
  ∃ X' cams' dist',
    stereo_match_value line_dist sys coords d_max' = Ok (Some (X', cams', dist'))
    ∧ cams ⊆ cams'.
Proof.
  intros Hle (Hd & Hne & _ & -> & _)%stereo_match_value_Some.
  assert (∀ kk, kk ∈ retained line_dist sys coords d_max →
                kk ∈ retained line_dist sys coords d_max') as Hsub.
  { intros kk [Hkk Hr]%retained_elem. apply retained_elem. split; [done|].
    unfold is_retained in *.
    destruct (pair_dist line_dist sys coords kk) as [[D x]|]; [lra|done]. }
  rewrite stereo_match_value_spec, decide_True by done.
  unfold consensus. rewrite decide_False.
  - eexists _, _, _. split; [reflexivity|].
    intros k. rewrite !elem_of_list_to_set, !cams_of_elem.
    intros (kk & Hin & Hor). exists kk. auto.
  - destruct (retained line_dist sys coords d_max) as [|kk l]; [done|].
    intros Hnil. specialize (Hsub kk ltac:(by left)). rewrite Hnil in Hsub.
    by apply elem_of_nil in Hsub.
Qed.

Lemma foldr_Rplus_bound (l : list R) (b : R) :
  Forall (λ D, (D <= b)%R) l → (foldr Rplus 0 l <= INR (length l) * b)%R.
Proof.
  induction 1 as [|D l HD _ IH]; [simpl; lra|].
  cbn [foldr]. rewrite length_cons, S_INR. lra.
Qed.

Lemma dists_of_retained_bound d_max (l : list (Z * Z)) :
  Forall (λ D, (D <= d_max)%R)
    (dists_of line_dist sys coords (filter (is_retained line_dist sys coords d_max) l)).
Proof.
  induction l as [|kk l IH]; [constructor|].
  destruct (decide (is_retained line_dist sys coords d_max kk)) as [Hr|Hr].
  - rewrite filter_cons_True by done. unfold is_retained in Hr.
    unfold dists_of in *. simpl.
    destruct (pair_dist line_dist sys coords kk) as [[D x]|]; [|done].
    simpl. by constructor.
  - by rewrite filter_cons_False.
Qed.

(** X9.  The mean distance that [stereo_match] returns is at most [d_max]. *)
Theorem stereo_match_distance_bound (d_max : R) (X : vec3) (cams : gset Z) (dist : R) :
  stereo_match_value line_dist sys coords d_max = Ok (Some (X, cams, dist)) →
  (dist <= d_max)%R.
Proof.
  intros (_ & Hne & _ & _ & ->)%stereo_match_value_Some.
  unfold mean, retained in *.
  set (l := filter _ _) in *.
  pose proof (foldr_Rplus_bound _ _ (dists_of_retained_bound d_max
                (all_pairs (dict_keys coords)))) as Hb. fold l in Hb.
  destruct (retained_lengths line_dist sys coords d_max (all_pairs (dict_keys coords)))
    as [_ Hlen]. fold l in Hlen.
  assert (0 < INR (length (dists_of line_dist sys coords l)))%R as Hpos.
  { rewrite Hlen. apply lt_0_INR. destruct l; simpl; [done|lia]. }
  apply (Rmult_le_reg_r (INR (length (dists_of line_dist sys coords l)))); [done|].
  unfold Rdiv. rewrite Rmult_assoc, Rinv_l by lra. lra.
Qed.
End Stereo_more.

Section Stereo_state.
Variable line_dist : vec3 → vec3 → vec3 → vec3 → R * vec3.

Lemma calc_R_eq_fields (c c' : camera) :
  calc_R c' = calc_R c →
  cam_O c' = cam_O c ∧ cam_theta c' = cam_theta c ∧ cam_f c' = cam_f c
  ∧ cam_resolution c' = cam_resolution c ∧ cam_name c' = cam_name c
  ∧ cam_cal c' = cam_cal c.
Proof.
  intros H. split_and!;
    [apply (f_equal cam_O H)|apply (f_equal cam_theta H)|apply (f_equal cam_f H)
    |apply (f_equal cam_resolution H)|apply (f_equal cam_name H)
    |apply (f_equal cam_cal H)].
Qed.

(** X10.  A call of [stereo_match] that returns leaves the list of cameras
    as long as it was and changes no location, angle, focal depth,
    resolution, name or calibration data of any camera (only rotation
    matrices are recomputed); it has called [line_dist] once for each of
    the [C(N,2)] pairs. *)
Theorem stereo_match_keeps_cameras (coords : dict) (d_max : R) (w w' : world)
    (v : option (vec3 * gset Z * R)) :
  stereo_match line_dist coords d_max w = Ok (v, w') →
  length (cameras (self w')) = length (cameras (self w))
  ∧ (∀ i c', cameras (self w') !! i = Some c' →
       ∃ c, cameras (self w) !! i = Some c
            ∧ cam_O c' = cam_O c ∧ cam_theta c' = cam_theta c ∧ cam_f c' = cam_f c
            ∧ cam_resolution c' = cam_resolution c ∧ cam_name c' = cam_name c
            ∧ cam_cal c' = cam_cal c)
  ∧ ∃ new, calls w' = calls w ++ new ∧ length new = choose2 (dict_len coords).
Proof.
  intros Hrun.
  destruct (stereo_match_spec line_dist (self w) coords d_max w eq_refl)
    as [(Hd & w1 & Hrun1 & Hw1 & Hc1)|[_ Hrun1]];
    rewrite Hrun1 in Hrun; [|done].
  injection Hrun as <- <-. unfold refreshes in Hw1. split_and!.
  - apply (f_equal length) in Hw1. by rewrite !length_fmap in Hw1.
  - intros i c' Hi. apply (f_equal (.!! i)) in Hw1.
    rewrite !list_lookup_fmap, Hi in Hw1.
    destruct (cameras (self w) !! i) as [c|]; [|done].
    exists c. split; [done|]. apply calc_R_eq_fields. simpl in Hw1. congruence.
  - eexists. split; [exact Hc1|].
    rewrite <- (Forall2_length _ _ _ (omap_pair_call (self w) coords _ Hd)).
    rewrite all_pairs_length. unfold dict_keys, dict_len. by rewrite length_fmap.
Qed.
End Stereo_state.

Section More_instances.
Local Open Scope R_scope.

Lemma two_views_value :
  stereo_match_value closestApproach stereo_pair two_views two_views_dist
  = Ok (Some (mean_arrays (points_of closestApproach stereo_pair two_views [(0, 1)%Z]),
              list_to_set (cams_of [(0, 1)%Z]),
              mean (dists_of closestApproach stereo_pair two_views [(0, 1)%Z]))).
Proof.
  rewrite stereo_match_value_spec.
  rewrite decide_True by apply known_cameras_pairs_defined, stereo_pair_known.
  unfold consensus. by rewrite two_views_retained, decide_False.
Qed.

Lemma stereo_match_cams_witness :
  (2 ≤ size (list_to_set (cams_of [(0, 1)%Z]) : gset Z))%nat
  ∧ ∀ k, k ∈ (list_to_set (cams_of [(0, 1)%Z]) : gset Z) →
         k ∈ dict_keys two_views ∧ is_Some (resolve stereo_pair k).
Proof.
  exact (stereo_match_cams closestApproach stereo_pair two_views two_views_dist
           _ _ _ two_views_value).
Defined.

Lemma stereo_match_threshold_monotone_witness :
  ∃ X' cams' dist',
    stereo_match_value closestApproach stereo_pair two_views (two_views_dist + 1)
    = Ok (Some (X', cams', dist'))
    ∧ (list_to_set (cams_of [(0, 1)%Z]) : gset Z) ⊆ cams'.
Proof.
  eapply (stereo_match_threshold_monotone closestApproach stereo_pair two_views
            two_views_dist (two_views_dist + 1)).
  - lra.
  - exact two_views_value.
Defined.

Lemma stereo_match_distance_bound_witness :
  mean (dists_of closestApproach stereo_pair two_views [(0, 1)%Z]) <= two_views_dist.
Proof.
  eapply (stereo_match_distance_bound closestApproach stereo_pair two_views
            two_views_dist).
  exact two_views_value.
Defined.

Lemma stereo_match_keeps_cameras_witness :
  ∃ v w',
    stereo_match closestApproach two_views two_views_dist (World stereo_pair [])
    = Ok (v, w')
    ∧ length (cameras (self w')) = 2%nat
    ∧ ∃ new, calls w' = new ∧ length new = choose2 2.
Proof.
  destruct (stereo_match_spec closestApproach stereo_pair two_views two_views_dist
              (World stereo_pair []) eq_refl)
    as [(_ & w' & Hrun & _)|[Hno _]];
    [|destruct Hno; apply known_cameras_pairs_defined, stereo_pair_known].
  destruct (stereo_match_keeps_cameras closestApproach two_views two_views_dist
              (World stereo_pair []) w' _ Hrun) as (Hlen & _ & new & Hnew & Hn).
  eexists _, w'. split; [exact Hrun|]. split; [exact Hlen|].
  exists new. split; [exact Hnew|exact Hn].
Defined.
End More_instances.

(** * The epipolar line that is plotted *)

Section Plot_facts.
Local Open Scope R_scope.

(** X11.  When the ray of the pixel is not horizontal ([r.z <> 0]), the
    two end points [(x0, y0, z0)] and [(x1, y1, z1)] that
    [plot_3D_epipolar_line] hands to the plot are the points of the
    epipolar line at the heights [z0] and [z1]; for a focal depth other
    than [0], [projection] maps each end point that is not at the height of
    the camera back onto the pixel. *)
Theorem plot_3D_epipolar_line_endpoints (c : camera) (eta zeta z0 z1 : R) :
  let r := fst (get_r c eta zeta) in
  vz r ≠ 0 →
  ∃ x0 x1 y0 y1,
    plot_3D_epipolar_line c eta zeta (z0, z1)
      = ((x0, x1), (z0, z1), (y0, y1), calc_R c)
    ∧ on_line (cam_O c) r (array3 x0 y0 z0)
    ∧ on_line (cam_O c) r (array3 x1 y1 z1)
    ∧ (cam_f c ≠ 0 → z0 ≠ vz (cam_O c) →
         projection (calc_R c) (array3 x0 y0 z0) = Ok (eta, zeta))
    ∧ (cam_f c ≠ 0 → z1 ≠ vz (cam_O c) →
         projection (calc_R c) (array3 x1 y1 z1) = Ok (eta, zeta)).
Proof.
  intros r Hz.
  assert (∀ z, array3 (vx (cam_O c) + (z - vz (cam_O c)) / vz r * vx r)
                    (vy (cam_O c) + (z - vz (cam_O c)) / vz r * vy r) z
               = vadd (cam_O c) (vscale ((z - vz (cam_O c)) / vz r) r)) as Hpt.
  { intros z. unfold vadd, vscale. simpl. array_eq; [done..|]. field. exact Hz. }
  assert (∀ t, cam_f c ≠ 0 → t ≠ 0 →
            projection (calc_R c) (vadd (cam_O c) (vscale t r)) = Ok (eta, zeta)) as Hproj.
  { intros t Hf Ht. unfold r. rewrite get_r_ray. cbn [fst].
    unfold projection.
    rewrite (camera_frame_consistent (calc_R c) _ (calc_R_consistent c)).
    change (cam_O (calc_R c)) with (cam_O c).
    change (cam_R (calc_R c)) with (rotation_of (cam_theta c)).
    change (cam_f (calc_R c)) with (cam_f c).
    change (cam_resolution (calc_R c)) with (cam_resolution c).
    rewrite vsub_vadd_l, dot_vm_vscale, dot_vm_assoc.
    destruct (orthonormal_rotation_of (cam_theta c)) as [-> _].
    rewrite dot_vm_identity. cbn [result_bind]. simpl.
    do 2 f_equal; field; auto. }
  eexists _, _, _, _. split; [reflexivity|].
  fold r. change (cam_O (calc_R c)) with (cam_O c). rewrite !Hpt.
  split_and!.
  - by eexists.
  - by eexists.
  - intros Hf Hne. apply Hproj; [done|].
    intros H0. apply Hne. apply (Rmult_eq_compat_r (vz r)) in H0.
    field_simplify in H0; [lra|done].
  - intros Hf Hne. apply Hproj; [done|].
    intros H0. apply Hne. apply (Rmult_eq_compat_r (vz r)) in H0.
    field_simplify in H0; [lra|done].
Qed.

Lemma unit_camera_ray : fst (get_r unit_camera 3 4) = array3 2 1 (-1).
Proof.
  rewrite get_r_ray. cbn [fst].
  change (cam_theta unit_camera) with (array3 0 0 0).
  rewrite rotation_of_zero, dot_vm_identity. simpl. array_eq; lra.
Qed.

Lemma plot_3D_epipolar_line_endpoints_witness :
  ∃ x0 x1 y0 y1,
    plot_3D_epipolar_line unit_camera 3 4 (1, 2)
      = ((x0, x1), (1, 2), (y0, y1), calc_R unit_camera)
    ∧ on_line (cam_O unit_camera) (fst (get_r unit_camera 3 4)) (array3 x0 y0 1)
    ∧ on_line (cam_O unit_camera) (fst (get_r unit_camera 3 4)) (array3 x1 y1 2)
    ∧ (cam_f unit_camera ≠ 0 → 1 ≠ vz (cam_O unit_camera) →
         projection (calc_R unit_camera) (array3 x0 y0 1) = Ok (3, 4))
    ∧ (cam_f unit_camera ≠ 0 → 2 ≠ vz (cam_O unit_camera) →
         projection (calc_R unit_camera) (array3 x1 y1 2) = Ok (3, 4)).
Proof.
  apply (plot_3D_epipolar_line_endpoints unit_camera 3 4 1 2).
  rewrite unit_camera_ray. simpl. lra.
Defined.
End Plot_facts.

(** * Saving and loading a camera *)

Section Text_facts.
Lemma string_app_nil_l (s : string) : EmptyString +:+ s = s.
Proof. reflexivity. Qed.

Lemma string_app_cons (ch : Ascii.ascii) (a b : string) :
  String ch a +:+ b = String ch (a +:+ b).
Proof. reflexivity. Qed.

Lemma string_app_nil_r (s : string) : s +:+ EmptyString = s.
Proof.
  induction s as [|ch s IH]; [done|]. rewrite string_app_cons. by f_equal.
Qed.

Lemma string_app_assoc (a b c : string) : (a +:+ b) +:+ c = a +:+ (b +:+ c).
Proof.
  induction a as [|ch a IH]; [done|]. rewrite !string_app_cons. by f_equal.
Qed.

Lemma string_forall_app P (a b : string) :
  string_forall P (a +:+ b) = string_forall P a && string_forall P b.
Proof.
  induction a as [|ch a IH]; [done|]. rewrite string_app_cons. simpl.
  rewrite <- andb_assoc. by f_equal.
Qed.

Lemma string_forall_impl (P Q : Ascii.ascii → bool) (s : string) :
  (∀ ch, P ch = true → Q ch = true) →
  string_forall P s = true → string_forall Q s = true.
Proof.
  intros HPQ. induction s as [|ch s IH]; simpl; [done|].
  intros [? ?]%andb_true_iff. apply andb_true_iff. auto.
Qed.

Lemma isspace_LF : py_isspace LF = true.
Proof. reflexivity. Qed.
Lemma isspace_CR : py_isspace CR = true.
Proof. reflexivity. Qed.
Lemma isspace_SP : py_isspace SP = true.
Proof. reflexivity. Qed.

(** A text without white space has no line terminator. *)
Lemma word_no_newline (s : string) :
  string_forall (λ ch, negb (py_isspace ch)) s = true → no_newline s = true.
Proof.
  apply string_forall_impl. intros ch Hch.
  apply andb_true_iff. split; apply negb_true_iff, bool_decide_eq_false;
    intros ->; by rewrite ?isspace_LF, ?isspace_CR in Hch.
Qed.

Lemma no_newline_cons (ch : Ascii.ascii) (l : string) :
  no_newline (String ch l) = true → ch ≠ LF ∧ ch ≠ CR ∧ no_newline l = true.
Proof.
  unfold no_newline. simpl.
  intros [[H1 H2]%andb_true_iff Hl]%andb_true_iff.
  apply negb_true_iff, bool_decide_eq_false in H1.
  apply negb_true_iff, bool_decide_eq_false in H2. done.
Qed.

(** Reading a line that ends in a line feed, and reading the last line. *)
Lemma readline_line (l rest : string) :
  no_newline l = true →
  readline (l +:+ String LF rest) = (l +:+ String LF EmptyString, rest).
Proof.
  induction l as [|ch l IH].
  - done.
  - intros (H1 & H2 & Hl)%no_newline_cons. rewrite !string_app_cons.
    cbn [readline]. rewrite decide_False, decide_False by done.
    by rewrite (IH Hl).
Qed.

Lemma readline_last (l : string) :
  no_newline l = true → readline l = (l, EmptyString).
Proof.
  induction l as [|ch l IH]; [done|].
  intros (H1 & H2 & Hl)%no_newline_cons. cbn [readline].
  rewrite decide_False, decide_False by done. by rewrite (IH Hl).
Qed.

Lemma drop_last2_app (s : string) (a b : Ascii.ascii) :
  drop_last2 (s +:+ String a (String b EmptyString)) = s.
Proof.
  induction s as [|ch s IH]; [done|].
  rewrite string_app_cons. destruct s as [|ch' s'].
  - reflexivity.
  - rewrite string_app_cons in *. destruct s' as [|ch'' s''].
    + reflexivity.
    + rewrite string_app_cons in *. cbn [drop_last2]. f_equal. exact IH.
Qed.

(** Splitting at white space: a run of other characters extends the
    current token, and a space ends it. *)
Lemma py_split_run (w rest t : string) :
  string_forall (λ ch, negb (py_isspace ch)) w = true →
  py_split_from (w +:+ rest) (Some t) = py_split_from rest (Some (t +:+ w)).
Proof.
  revert t. induction w as [|ch w IH]; intros t.
  - intros _. by rewrite string_app_nil_l, string_app_nil_r.
  - simpl. intros [Hch%negb_true_iff Hw]%andb_true_iff. rewrite Hch.
    rewrite (IH _ Hw). do 2 f_equal.
    by rewrite string_app_assoc, string_app_cons, string_app_nil_l.
Qed.

Lemma py_split_word (w rest : string) :
  is_word w = true →
  py_split_from (w +:+ rest) None = py_split_from rest (Some w).
Proof.
  unfold is_word. destruct w as [|ch w]; [done|]. simpl.
  intros [Hch%negb_true_iff Hw]%andb_true_iff. rewrite Hch.
  rewrite (py_split_run w rest _ Hw).
  by rewrite string_app_cons, string_app_nil_l.
Qed.

Lemma py_split_space (rest t : string) :
  py_split_from (String SP rest) (Some t) = t :: py_split_from rest None.
Proof. done. Qed.

Lemma py_split_three (w1 w2 w3 : string) :
  is_word w1 = true → is_word w2 = true → is_word w3 = true →
  py_split (w1 +:+ String SP (w2 +:+ String SP w3)) = [w1; w2; w3].
Proof.
  intros H1 H2 H3. unfold py_split.
  rewrite (py_split_word _ _ H1), py_split_space.
  rewrite (py_split_word _ _ H2), py_split_space.
  rewrite <- (string_app_nil_r w3) at 1.
  by rewrite (py_split_word _ _ H3).
Qed.
End Text_facts.

Section Save_load.
Variable path_join : string → string → string.
Variable str_item : R → string.
Variable str_f : R → string.
Variable float_of : string → option R.
Variable can_write : string → bool.

Lemma items_text_line (a : vec3) :
  items_text str_item a +:+ String LF EmptyString
  = (str_item (vx a) +:+ String SP (str_item (vy a) +:+ String SP (str_item (vz a))))
      +:+ String SP (String LF EmptyString).
Proof.
  unfold items_text.
  repeat first [rewrite string_app_assoc|rewrite string_app_cons
               |rewrite string_app_nil_l].
  done.
Qed.

Lemma is_word_nonspace (w : string) :
  is_word w = true → string_forall (λ ch, negb (py_isspace ch)) w = true.
Proof. unfold is_word. by intros [_ ?]%andb_true_iff. Qed.

Lemma items_text_no_newline (a : vec3) :
  reads_back str_item float_of a → no_newline (items_text str_item a) = true.
Proof.
  intros Ha.
  assert (∀ x, x ∈ [vx a; vy a; vz a] → no_newline (str_item x) = true) as Hw.
  { intros x Hx. apply word_no_newline, is_word_nonspace, Ha, Hx. }
  unfold items_text, no_newline in *.
  rewrite !string_forall_app. simpl.
  rewrite (Hw (vx a)), (Hw (vy a)), (Hw (vz a)); [done|set_unfold; tauto..].
Qed.

Lemma items_text_parse (a : vec3) (rest : string) :
  reads_back str_item float_of a →
  ∃ line, readline ((items_text str_item a +:+ String LF EmptyString) +:+ rest)
            = (line, rest)
          ∧ floats_of float_of (py_split (drop_last2 line)) = Some [vx a; vy a; vz a].
Proof.
  intros Ha.
  exists (items_text str_item a +:+ String LF EmptyString). split.
  - rewrite string_app_assoc, string_app_cons, string_app_nil_l.
    apply readline_line, items_text_no_newline, Ha.
  - rewrite items_text_line, drop_last2_app.
    destruct (Ha (vx a)) as [H1 F1]; [set_unfold; tauto|].
    destruct (Ha (vy a)) as [H2 F2]; [set_unfold; tauto|].
    destruct (Ha (vz a)) as [H3 F3]; [set_unfold; tauto|].
    rewrite (py_split_three _ _ _ H1 H2 H3). simpl. by rewrite F1, F2, F3.
Qed.

(** What [load] reads from the text that [save] writes. *)
Lemma load_values_save_text (c : camera) :
  no_newline (cam_name c) = true →
  reads_back str_item float_of (cam_O c) →
  reads_back str_item float_of (cam_theta c) →
  no_newline (str_f (cam_f c)) = true →
  load_values float_of (save_text str_item str_f c)
  = match float_of (drop_last2 (str_f (cam_f c))) with
    | Some f => Some ([vx (cam_O c); vy (cam_O c); vz (cam_O c)],
                      [vx (cam_theta c); vy (cam_theta c); vz (cam_theta c)], f)
    | None => None
    end.
Proof.
  intros Hname HO Hth Hf. unfold load_values, save_text.
  rewrite string_app_assoc, string_app_cons, string_app_nil_l.
  rewrite (readline_line _ _ Hname).
  destruct (items_text_parse (cam_O c)
              ((items_text str_item (cam_theta c) +:+ String LF EmptyString)
                 +:+ str_f (cam_f c)) HO) as (l2 & -> & ->).
  destruct (items_text_parse (cam_theta c) (str_f (cam_f c)) Hth) as (l3 & -> & ->).
  by rewrite (readline_last _ Hf).
Qed.

(** [load_file] assigns what it reads like [load] does. *)
Lemma load_file_load (files : gmap string string) (c : camera) (dir_path text : string)
    (o th : vec3) (f : R) :
  files !! path_join dir_path (cam_name c) = Some text →
  load_values float_of text = Some ([vx o; vy o; vz o], [vx th; vy th; vz th], f) →
  result_map Loaded (load (λ _ _, Ok (o, th, f)) c dir_path)
  = Ok (load_file path_join float_of files c dir_path).
Proof.
  intros Hfile Hvalues. unfold load, load_file. rewrite Hfile, Hvalues.
  by destruct o, th.
Qed.

(** X12.  Saving a camera and loading it again from the same directory
    restores the location and the angles and recomputes the matrix, but
    the focal depth is read from its text without the last two characters:
    it is restored only when those do not matter, and [load] raises
    [ValueError] when the shortened text is not a number.  (The name
    holds no line terminator, the text of each location and angle entry is
    a word that [float] reads back, and the text of the focal depth holds
    no line terminator.) *)
Theorem save_load (files files' : gmap string string) (c : camera) (dir_path : string) :
  no_newline (cam_name c) = true →
  reads_back str_item float_of (cam_O c) →
  reads_back str_item float_of (cam_theta c) →
  no_newline (str_f (cam_f c)) = true →
  save path_join str_item str_f can_write files c dir_path = inr files' →
  load_file path_join float_of files' c dir_path
  = match float_of (drop_last2 (str_f (cam_f c))) with
    | Some f => Loaded (calc_R (set_f c f))
    | None => Load_fails ValueError
    end.
Proof.
  intros Hname HO Hth Hf. unfold save, load_file.
  destruct (can_write _); [|done]. intros [= <-].
  rewrite lookup_insert_eq.
  rewrite (load_values_save_text c Hname HO Hth Hf).
  destruct (float_of (drop_last2 (str_f (cam_f c)))) as [f|]; [|done].
  f_equal. destruct c as [[] [] ? ? ? ? ?]. reflexivity.
Qed.
End Save_load.

Section Save_load_instance.
Local Open Scope R_scope.

Lemma str_bit_reads_back (a : vec3) :
  (∀ x, x ∈ [vx a; vy a; vz a] → x = 0 ∨ x = 1) →
  reads_back str_bit float_of_bit a.
Proof.
  intros Ha x Hx. unfold str_bit.
  destruct (Ha x Hx) as [-> | ->]; destruct (Req_dec_T _ 1); try lra; done.
Qed.

Lemma save_load_witness :
  load_file join_slash float_of_bit
    (<[join_slash "cams" (cam_name unit_camera) := save_text str_bit str_bit unit_camera]> ∅)
    unit_camera "cams"
  = match float_of_bit (drop_last2 (str_bit (cam_f unit_camera))) with
    | Some f => Loaded (calc_R (set_f unit_camera f))
    | None => Load_fails ValueError
    end.
Proof.
  apply (save_load join_slash str_bit str_bit float_of_bit (λ _, true) ∅).
  - reflexivity.
  - apply str_bit_reads_back. intros x Hx. left. simpl in Hx. set_unfold. tauto.
  - apply str_bit_reads_back. intros x Hx. left. simpl in Hx. set_unfold. tauto.
  - unfold str_bit. by destruct (Req_dec_T _ 1).
  - reflexivity.
Defined.
End Save_load_instance.

(** * Triangulation of a point that all cameras see *)

Section Triangulation_facts.
Local Open Scope R_scope.
Variable line_dist : vec3 → vec3 → vec3 → vec3 → R * vec3.
Variable sys : img_system.
Variable coords : dict.

Lemma filter_all {A : Type} (P : A → Prop) `{!∀ a, Decision (P a)} (l : list A) :
  Forall P l → filter P l = l.
Proof.
  induction 1 as [|a l Ha _ IH]; [done|]. by rewrite filter_cons_True, IH.
Qed.

Lemma cams_of_all_pairs (keys : list Z) :
  (2 ≤ length keys)%nat →
  (list_to_set (cams_of (all_pairs keys)) : gset Z) = list_to_set keys.
Proof.
  intros Hlen. apply set_eq. intros k.
  rewrite !elem_of_list_to_set, cams_of_elem. split.
  - intros ([a b] & [Ha Hb]%all_pairs_elem & [-> | ->]); done.
  - intros Hk. destruct (all_pairs_cover keys k Hlen Hk) as (a & b & Hab & Hor).
    by exists (a, b).
Qed.

Lemma all_pairs_nonempty (keys : list Z) :
  (2 ≤ length keys)%nat → all_pairs keys ≠ [].
Proof. destruct keys as [|a [|b rest]]; simpl; [lia|lia|done]. Qed.

Lemma retained_pairs_defined d_max :
  Forall (is_retained line_dist sys coords d_max) (all_pairs (dict_keys coords)) →
  pairs_defined sys coords.
Proof.
  intros H. eapply Forall_impl; [exact H|].
  intros kk Hr. unfold is_retained, pair_dist in Hr.
  destruct (pair_call sys coords kk); [by eexists|done].
Qed.

(** X13.  When every pair of at least two observations is within the
    threshold, [stereo_match] reports every camera of the observations. *)
Theorem stereo_match_all_retained (d_max : R) :
  (2 ≤ dict_len coords)%nat →
  Forall (is_retained line_dist sys coords d_max) (all_pairs (dict_keys coords)) →
  ∃ X dist,
    stereo_match_value line_dist sys coords d_max
    = Ok (Some (X, list_to_set (dict_keys coords), dist)).
Proof.
  intros Hlen Hall.
  assert (length (dict_keys coords) = dict_len coords) as HN by apply length_fmap.
  rewrite stereo_match_value_spec, decide_True by by eapply retained_pairs_defined.
  unfold consensus, retained. rewrite (filter_all _ _ Hall).
  rewrite decide_False by (apply all_pairs_nonempty; lia).
  rewrite cams_of_all_pairs by lia. by eexists _, _.
Qed.

Lemma foldr_vadd_replicate (n : nat) (x : vec3) :
  foldr vadd zeros3 (replicate n x) = vscale (INR n) x.
Proof.
  induction n as [|n IH]; [simpl; array_ring|].
  cbn [replicate foldr]. rewrite IH, S_INR. destruct x. array_unfold. array_eq; ring.
Qed.

Lemma foldr_Rplus_replicate (n : nat) (D : R) :
  foldr Rplus 0 (replicate n D) = INR n * D.
Proof.
  induction n as [|n IH]; [simpl; ring|].
  cbn [replicate foldr]. rewrite IH, S_INR. ring.
Qed.

Lemma constant_pairs (D : R) (x : vec3) (l : list (Z * Z)) :
  Forall (λ kk, pair_dist line_dist sys coords kk = Some (D, x)) l →
  points_of line_dist sys coords l = replicate (length l) x
  ∧ dists_of line_dist sys coords l = replicate (length l) D.
Proof.
  induction 1 as [|kk l Hkk _ [IH1 IH2]]; [done|].
  unfold points_of, dists_of in *. simpl. rewrite Hkk. simpl.
  split; f_equal; [exact IH1|exact IH2].
Qed.

(** The ray of the pixel onto which a point is projected passes through
    the point. *)
Lemma ray_of_projection (c : camera) (x : vec3) (p : pixel) :
  consistent c → cam_f c ≠ 0 → off_focal_plane c x → projection c x = Ok p →
  ∃ t, t ≠ 0 ∧ ray c p = vscale t (vsub x (cam_O c)).
Proof.
  intros Hc Hf (v & Hv & Hz). unfold projection. rewrite Hv. cbn [result_bind].
  intros [= <-]. unfold ray. cbn [fst snd].
  set (a := -1 * vz v / cam_f c).
  assert (a ≠ 0) as Ha.
  { unfold a. intros H0. apply Hz.
    apply (Rmult_eq_compat_r (cam_f c)) in H0. field_simplify in H0; lra. }
  exists (/ a). split; [by apply Rinv_neq_0_compat|].
  rewrite get_r_ray. cbn [fst]. rewrite <- (camera_frame_back _ _ _ Hv).
  rewrite <- Hc, <- dot_vm_vscale. f_equal.
  unfold vscale. simpl. array_eq; unfold a; field; auto.
Qed.

Lemma on_line_vscale (o u x : vec3) (t : R) :
  t ≠ 0 → on_line o (vscale t (vsub x o)) x.
Proof.
  intros Ht. exists (/ t). rewrite vscale_vscale.
  replace (/ t * t) with 1 by (field; exact Ht). rewrite vscale_1.
  destruct x, o. array_unfold. array_eq; ring.
Qed.

Lemma independent_vscale (u v : vec3) (s t : R) :
  independent u v → s ≠ 0 → t ≠ 0 → independent (vscale s u) (vscale t v).
Proof.
  unfold independent. intros Huv Hs Ht.
  replace (inner (vscale s u) (vscale s u) * inner (vscale t v) (vscale t v)
           - inner (vscale s u) (vscale t v) * inner (vscale s u) (vscale t v))
    with ((s * t) * (s * t) * (inner u u * inner v v - inner u v * inner u v))
    by (destruct u, v; unfold inner, vscale; simpl; ring).
  assert (s * t ≠ 0) by (apply Rmult_integral_contrapositive; auto).
  repeat apply Rmult_integral_contrapositive; auto.
Qed.

(** X14.  Triangulation is exact on consistent observations: when every
    observation is the projection of one lab point [x] in its camera
    (consistent matrix, focal depth other than [0], [x] off the focal
    plane), the directions from the cameras to [x] are pairwise
    independent, and [line_dist] returns distance [0] and the crossing
    point for crossing lines, then [stereo_match] with at least two
    observations and any threshold [d_max >= 0] returns the point [x]
    itself, all cameras of the observations and the mean distance [0]. *)
Theorem stereo_match_triangulates (x : vec3) (d_max : R) :
  exact_on_crossings line_dist →
  (2 ≤ dict_len coords)%nat → 0 <= d_max →
  (∀ k p, (k, p) ∈ dict_items coords → sees sys x k p) →
  (∀ k1 k2 c1 c2, (k1, k2) ∈ all_pairs (dict_keys coords) →
     resolve sys k1 = Some c1 → resolve sys k2 = Some c2 →
     independent (vsub x (cam_O c1)) (vsub x (cam_O c2))) →
  stereo_match_value line_dist sys coords d_max
  = Ok (Some (x, list_to_set (dict_keys coords), 0)).
Proof.
  intros Hld Hlen Hd Hsees Hind.
  assert (length (dict_keys coords) = dict_len coords) as HN by apply length_fmap.
  assert (∀ k, k ∈ dict_keys coords →
            ∃ p c t, alist_find (dict_items coords) k = Some p
                     ∧ resolve sys k = Some c ∧ t ≠ 0
                     ∧ ray c p = vscale t (vsub x (cam_O c))) as Hray.
  { intros k Hk. destruct (alist_find_key _ _ Hk) as [p Hp].
    pose proof (proj1 (alist_find_Some _ _ _ (dict_nodup coords)) Hp) as Hin.
    destruct (Hsees k p Hin) as (c & Hc & Hcons & Hf & Hoff & Hproj).
    destruct (ray_of_projection c x p Hcons Hf Hoff Hproj) as (t & Ht & Hr).
    by exists p, c, t. }
  assert (Forall (λ kk, pair_dist line_dist sys coords kk = Some (0, x))
                 (all_pairs (dict_keys coords))) as Hconst.
  { apply Forall_forall. intros [a b] Hab.
    destruct (all_pairs_elem _ _ _ Hab) as [Ha Hb].
    destruct (Hray a Ha) as (p1 & c1 & t1 & Hp1 & Hc1 & Ht1 & Hr1).
    destruct (Hray b Hb) as (p2 & c2 & t2 & Hp2 & Hc2 & Ht2 & Hr2).
    unfold pair_dist, pair_call. simpl. rewrite Hc1, Hp1, Hc2, Hp2. simpl.
    f_equal. rewrite Hr1, Hr2. apply Hld.
    - apply independent_vscale; [|done..]. by apply (Hind a b).
    - by apply on_line_vscale.
    - by apply on_line_vscale. }
  assert (Forall (is_retained line_dist sys coords d_max)
                 (all_pairs (dict_keys coords))) as Hall.
  { eapply Forall_impl; [exact Hconst|]. intros kk Hkk.
    unfold is_retained. by rewrite Hkk. }
  rewrite stereo_match_value_spec, decide_True by by eapply retained_pairs_defined.
  unfold consensus, retained. rewrite (filter_all _ _ Hall).
  rewrite decide_False by (apply all_pairs_nonempty; lia).
  rewrite cams_of_all_pairs by lia.
  destruct (constant_pairs 0 x _ Hconst) as [-> ->].
  unfold mean_arrays, mean.
  rewrite foldr_vadd_replicate, foldr_Rplus_replicate, !length_replicate.
  assert (INR (length (all_pairs (dict_keys coords))) ≠ 0) as Hn.
  { apply not_0_INR. pose proof (all_pairs_nonempty (dict_keys coords)) as Hne.
    destruct (all_pairs (dict_keys coords)); [by destruct Hne; [lia|]|done]. }
  do 3 f_equal; [f_equal|].
  - destruct x. array_unfold. array_eq; field; exact Hn.
  - field. exact Hn.
Qed.
End Triangulation_facts.

Section Triangulation_instance.
Local Open Scope R_scope.

(** The routine modelled from the specification is exact on crossings. *)
Lemma closestApproach_exact : exact_on_crossings closestApproach.
Proof.
  intros O1 r1 O2 r2 x Hind [t0 H1] [s0 H2].
  assert (O1 = vsub x (vscale t0 r1)) as -> by (rewrite H1; array_ring).
  assert (O2 = vsub x (vscale s0 r2)) as -> by (rewrite H2; array_ring).
  clear H1 H2. unfold closestApproach. cbv zeta.
  set (r12 := inner r1 r1) in *. set (r22 := inner r2 r2) in *.
  set (r1r2 := inner r1 r2) in *.
  assert (inner (vsub (vsub x (vscale s0 r2)) (vsub x (vscale t0 r1))) r1
          = t0 * r12 - s0 * r1r2) as -> by (unfold r12, r1r2; array_ring).
  assert (inner (vsub (vsub x (vscale s0 r2)) (vsub x (vscale t0 r1))) r2
          = t0 * r1r2 - s0 * r22) as -> by (unfold r22, r1r2; array_ring).
  unfold independent in Hind. fold r12 r22 r1r2 in Hind.
  assert ((- r22 * (t0 * r12 - s0 * r1r2) + r1r2 * (t0 * r1r2 - s0 * r22))
            / (- r22 * r12 + r1r2 * r1r2) = t0) as -> by (field; lra).
  assert ((- r1r2 * (t0 * r12 - s0 * r1r2) + r12 * (t0 * r1r2 - s0 * r22))
            / (- r22 * r12 + r1r2 * r1r2) = s0) as -> by (field; lra).
  clear. f_equal.
  - replace (inner _ _) with 0 by array_ring. apply sqrt_0.
  - destruct x, r1, r2. array_unfold. array_eq; field.
Qed.

Lemma stereo_match_all_retained_witness :
  ∃ X dist,
    stereo_match_value closestApproach stereo_pair two_views two_views_dist
    = Ok (Some (X, list_to_set (dict_keys two_views), dist)).
Proof.
  apply (stereo_match_all_retained closestApproach stereo_pair two_views two_views_dist).
  - unfold dict_len. simpl. lia.
  - rewrite two_views_pairs. constructor; [|constructor].
    unfold is_retained. rewrite two_views_pair_dist. unfold two_views_dist.
    destruct (closestApproach _ _ _ _). simpl. lra.
Defined.

Lemma left_camera_consistent : consistent left_camera.
Proof. symmetry. apply rotation_of_zero. Qed.

Lemma right_camera_consistent : consistent right_camera.
Proof. symmetry. apply rotation_of_zero. Qed.

Lemma left_camera_sees : sees stereo_pair axis_point 0 (5, 5).
Proof.
  exists left_camera. split; [reflexivity|]. split; [apply left_camera_consistent|].
  split; [simpl; lra|]. split.
  - eexists. split; [apply camera_frame_consistent, left_camera_consistent|].
    cbv [left_camera unit_camera axis_point cam_O cam_R]. array_unfold. lra.
  - unfold projection.
    rewrite (camera_frame_consistent _ _ left_camera_consistent).
    cbv [left_camera unit_camera axis_point cam_O cam_R cam_f cam_resolution
         result_bind fst snd].
    array_unfold. do 2 f_equal; field_simplify; lra.
Qed.

Lemma right_camera_sees : sees stereo_pair axis_point 1 (4, 5).
Proof.
  exists right_camera. split; [reflexivity|]. split; [apply right_camera_consistent|].
  split; [simpl; lra|]. split.
  - eexists. split; [apply camera_frame_consistent, right_camera_consistent|].
    cbv [right_camera set_O unit_camera axis_point cam_O cam_R cam_theta cam_f
         cam_resolution cam_name cam_cal]. array_unfold. lra.
  - unfold projection.
    rewrite (camera_frame_consistent _ _ right_camera_consistent).
    cbv [right_camera set_O unit_camera axis_point cam_O cam_R cam_theta cam_f
         cam_resolution cam_name cam_cal result_bind fst snd].
    array_unfold. do 2 f_equal; field_simplify; lra.
Qed.

Lemma stereo_match_triangulates_witness :
  stereo_match_value closestApproach stereo_pair crossing_views 0
  = Ok (Some (axis_point, list_to_set (dict_keys crossing_views), 0)).
Proof.
  apply (stereo_match_triangulates closestApproach stereo_pair crossing_views
           axis_point 0).
  - exact closestApproach_exact.
  - unfold dict_len. simpl. lia.
  - lra.
  - intros k p Hin. simpl in Hin.
    apply elem_of_cons in Hin as [[= -> ->]|Hin]; [exact left_camera_sees|].
    apply elem_of_cons in Hin as [[= -> ->]|Hin]; [exact right_camera_sees|].
    by apply elem_of_nil in Hin.
  - intros k1 k2 c1 c2 Hin. change (all_pairs (dict_keys crossing_views))
      with [(0, 1)%Z] in Hin.
    apply elem_of_cons in Hin as [[= -> ->]|Hin]; [|by apply elem_of_nil in Hin].
    intros [= <-] [= <-].
    cbv [independent left_camera right_camera set_O unit_camera axis_point
         cam_O cam_theta cam_f cam_R cam_resolution cam_name cam_cal].
    array_unfold. lra.
Defined.
End Triangulation_instance.
